(** * Randomness-analysis pipeline: data generation, metrics, uniformity test,
      clustering.

    A shallow embedding of [my_module/data_processing.py],
    [my_module/analysis.py] and [my_module/testing.py], with the parts of
    pandas, numpy, scipy and scikit-learn those files call.

    Conventions.
    - Python exceptions are the constructors of [PyExn]; a call that may raise
      returns a [Result].
    - Floating point numbers are exact rationals ([Q]); [==] is [Qeq].
    - A cell of a table is a [value]; [VNaN] is a missing cell.
    - Code that mutates a frame in place or draws from numpy's global
      generator runs in the state-and-exception monad [Py] over a [World]. *)

From Stdlib Require Import ZArith QArith Qabs Qminmax Lia Lqa.
From stdpp Require Import base gmap strings list sorting pretty.

(** ** Python exceptions *)

Inductive PyExn : Set :=
  | KeyError
  | IndexError
  | ZeroDivisionError
  | ValueError.

Definition Result (A : Type) : Type := (PyExn + A)%type.

Definition is_error {A : Type} (r : Result A) : Prop :=
  match r with inl _ => True | inr _ => False end.

Definition result_bind {A B : Type} (r : Result A) (k : A → Result B)
  : Result B :=
  match r with
  | inl e => inl e
  | inr a => k a
  end.

Declare Scope result_scope.
Delimit Scope result_scope with result.
Notation "x <- r ;; k" := (result_bind r (λ x, k))
  (at level 100, r at next level, right associativity) : result_scope.

(** ** Cells and columns *)

(** A cell: an integer, a string, an instant counted in minutes since
    1970-01-01T00:00, or a missing cell (NaN, None, NaT). *)
Inductive value : Set :=
  | VInt (z : Z)
  | VStr (s : string)
  | VTime (t : Z)
  | VNaN.

Global Instance value_eq_dec : EqDecision value.
Proof. solve_decision. Defined.

(** The natural order of the cells of one dtype: integers by value, strings
    by code point, instants by time.  The code never orders cells of
    different dtypes ([np.sort] refuses them, see [comparable]) nor missing
    cells (they are dropped first); the clauses for them are there to make
    the relation total. *)
Definition value_le (a b : value) : Prop :=
  match a, b with
  | VInt x, VInt y => (x ≤ y)%Z
  | VStr s, VStr t => String.le s t
  | VTime x, VTime y => (x ≤ y)%Z
  | VInt _, (VStr _ | VTime _) => True
  | VStr _, VTime _ => True
  | _, VNaN => True
  | _, _ => False
  end.

Global Instance value_le_dec : RelDecision value_le.
Proof. intros [x|s|x|] [y|t|y|]; simpl; apply _. Defined.

Definition is_int (v : value) : Prop :=
  match v with VInt _ => True | _ => False end.

Definition is_str (v : value) : Prop :=
  match v with VStr _ => True | _ => False end.

Global Instance is_int_dec v : Decision (is_int v).
Proof. destruct v; simpl; apply _. Defined.

Global Instance is_str_dec v : Decision (is_str v).
Proof. destruct v; simpl; apply _. Defined.

Definition is_time (v : value) : Prop :=
  match v with VTime _ => True | _ => False end.

Global Instance is_time_dec v : Decision (is_time v).
Proof. destruct v; simpl; apply _. Defined.

(** The arrays [np.sort] accepts: cells of one dtype.  On an object array
    that mixes integers, strings and instants the comparison raises
    [TypeError]. *)
Definition comparable (l : list value) : Prop :=
  Forall is_int l ∨ Forall is_str l ∨ Forall is_time l.

Global Instance comparable_dec l : Decision (comparable l).
Proof. unfold comparable; apply _. Defined.

(** *** [pandas.Series] primitives *)

Module Series.

(** [s.dropna()]: the cells that are present, in their order. *)
Definition dropna (s : list value) : list value :=
  filter (λ x, x ≠ VNaN) s.

(** Number of cells of [t] equal to [v]. *)
Definition occurrences (v : value) (t : list value) : nat :=
  length (filter (λ x, x = v) t).

(** The frequency of [v] as [value_counts] and [mode] see it: the number
    of present cells equal to [v].  A missing cell is counted for no
    value, the missing value included. *)
Definition count (v : value) (s : list value) : nat :=
  occurrences v (dropna s).

(** The hash-table pass of [unique]: distinct cells, in order of first
    appearance. *)
Fixpoint unique_from (seen s : list value) : list value :=
  match s with
  | [] => []
  | x :: s' =>
      if decide (x ∈ seen) then unique_from seen s'
      else x :: unique_from (x :: seen) s'
  end.

Definition distinct (t : list value) : list value := unique_from [] t.

(** The distinct values of [s] as [nunique], [value_counts] and [mode] see
    them (all three drop the missing cells). *)
Definition unique (s : list value) : list value := distinct (dropna s).

(** [s.nunique()] *)
Definition nunique (s : list value) : nat := length (unique s).

(** Order of the rows of [value_counts]: larger counts first. *)
Definition freq_ge (a b : value * nat) : Prop := b.2 ≤ a.2.

Global Instance freq_ge_dec : RelDecision freq_ge.
Proof. intros a b; unfold freq_ge; apply _. Defined.

(** [s.value_counts()]: one row per distinct present cell, sorted by
    descending count.  The order among rows of equal count is not fixed by pandas;
    nothing below depends on it. *)
Definition value_counts (s : list value) : list (value * nat) :=
  merge_sort freq_ge (map (λ v, (v, count v s)) (unique s)).

Definition max_count (s : list value) : nat :=
  max_list (map (λ v, count v s) (unique s)).

(** [s.mode()]: the present cells of maximal count, collected in order of
    first appearance and then sorted ascending; when they cannot be sorted
    ([TypeError], caught with a warning) they stay as collected.  No cell
    when every cell is missing. *)
Definition mode (s : list value) : list value :=
  let modes := filter (λ v, count v s = max_count s) (unique s) in
  if decide (comparable modes) then merge_sort value_le modes else modes.

(** [s[0]] on the freshly built result of [mode]. *)
Definition getitem0 (s : list value) : Result value :=
  match s with
  | [] => inl KeyError
  | v :: _ => inr v
  end.

(** [s.iloc[0]] on the counts of [value_counts]. *)
Definition iloc0 (s : list (value * nat)) : Result nat :=
  match s with
  | [] => inl IndexError
  | r :: _ => inr r.2
  end.

End Series.

(** ** [pandas.DataFrame] *)

Record DataFrame : Type := mkFrame {
  index_len : nat;
  columns : list (string * list value)
}.

Fixpoint col_lookup (c : string) (cols : list (string * list value))
  : option (list value) :=
  match cols with
  | [] => None
  | (name, s) :: cols' =>
      if decide (name = c) then Some s else col_lookup c cols'
  end.

(** Replace the column named [c] where it stands, or append it. *)
Fixpoint col_set (c : string) (s : list value)
    (cols : list (string * list value)) : list (string * list value) :=
  match cols with
  | [] => [(c, s)]
  | (name, s') :: cols' =>
      if decide (name = c) then (name, s) :: cols'
      else (name, s') :: col_set c s cols'
  end.

(** Every column has one cell per row. *)
Definition rectangular (df : DataFrame) : Prop :=
  Forall (λ col, length col.2 = index_len df) (columns df).

Global Instance rectangular_dec df : Decision (rectangular df).
Proof. unfold rectangular; apply _. Defined.

(** [data[column]] *)
Definition getitem (df : DataFrame) (c : string) : Result (list value) :=
  match col_lookup c (columns df) with
  | Some s => inr s
  | None => inl KeyError
  end.

(** [data[c] = s] for an array [s]: its length must be that of the index. *)
Definition setitem (df : DataFrame) (c : string) (s : list value)
  : Result DataFrame :=
  if decide (length s = index_len df)
  then inr (mkFrame (index_len df) (col_set c s (columns df)))
  else inl ValueError.

(** [pd.DataFrame({...})] from arrays: all of one length. *)
Definition DataFrame_of_dict (cols : list (string * list value))
  : Result DataFrame :=
  match cols with
  | [] => inr (mkFrame 0 [])
  | (_, s) :: _ =>
      if decide (Forall (λ col, length col.2 = length s) cols)
      then inr (mkFrame (length s) cols)
      else inl ValueError
  end.

Arguments DataFrame_of_dict : simpl never.

(** ** Rational arithmetic used for floats *)

Definition Qsum (l : list Q) : Q := foldr Qplus 0%Q l.

Definition Qltb (x y : Q) : bool := negb (Qle_bool y x).

Definition Qsq (x : Q) : Q := (x * x)%Q.

(** ** The libraries behind the calls *)

(** numpy's legacy generator: a seeding function, [random_sample] (a double
    in [0,1)) and [randint(0, n)]. *)
Class RandomState (Rng : Type) : Type := {
  rs_seed : Z → Rng;
  random_sample : Rng → Q * Rng;
  randint : Z → Rng → Z * Rng;
  random_sample_range : ∀ g,
    (0 <= (random_sample g).1)%Q ∧ ((random_sample g).1 < 1)%Q;
  randint_range : ∀ n g, (0 < n)%Z → (0 ≤ (randint n g).1 < n)%Z
}.

(** [scipy.stats.chi2.sf x df], the survival function of the chi-square
    distribution; [None] is NaN, the value scipy gives outside the
    distribution's parameter range [df > 0]. *)
Class Chi2 : Type := {
  chi2_sf : Q → Z → option Q;
  chi2_sf_nan : ∀ x df, (df ≤ 0)%Z → chi2_sf x df = None;
  chi2_sf_zero : ∀ x df, (0 < df)%Z → (x == 0)%Q → chi2_sf x df = Some 1%Q;
  chi2_sf_range : ∀ x df, (0 < df)%Z → (0 <= x)%Q →
    ∃ p, chi2_sf x df = Some p ∧ (0 <= p)%Q ∧ (p <= 1)%Q
}.

(** [fit_predict] converts the cells of the column to doubles the way
    Python's [float] does, so a string of digits is a number to it. *)

Definition digit_value (c : Ascii.ascii) : option Z :=
  let n := Z.of_N (Ascii.N_of_ascii c) in
  if decide (48 ≤ n ≤ 57)%Z then Some (n - 48)%Z else None.

Fixpoint digits_value (acc : Z) (s : string) : option Z :=
  match s with
  | EmptyString => Some acc
  | String c s' =>
      match digit_value c with
      | Some d => digits_value (10 * acc + d) s'
      | None => None
      end
  end.

(** The cells known to convert to a finite double: a 64-bit integer, and
    a string of one to fifteen decimal digits. *)
Definition finite_number (v : value) : option Z :=
  match v with
  | VInt z =>
      if decide (- 2 ^ 63 ≤ z < 2 ^ 63)%Z then Some z else None
  | VStr s =>
      if decide (1 ≤ String.length s ≤ 15) then digits_value 0 s else None
  | _ => None
  end.

Definition is_letter (c : Ascii.ascii) : bool :=
  let n := Z.of_N (Ascii.N_of_ascii c) in
  bool_decide ((65 ≤ n ≤ 90)%Z ∨ (97 ≤ n ≤ 122)%Z).

Fixpoint letters_only (s : string) : bool :=
  match s with
  | EmptyString => true
  | String c s' => is_letter c && letters_only s'
  end.

(** A string cell made of letters only.  [float] either rejects it or
    reads it as a NaN or an infinity, which [fit_predict] rejects. *)
Definition is_word (v : value) : Prop :=
  match v with
  | VStr s => letters_only s = true
  | _ => False
  end.

Global Instance is_word_dec v : Decision (is_word v).
Proof. destruct v; simpl; apply _. Defined.

(** [KMeans(n_clusters, random_state).fit_predict(X)] on a one-column table
    [X]: parameter validation, input validation and the sample-count check
    all raise [ValueError]; finite numbers, at least as many as clusters,
    are always given labels; the labels of a successful fit are one per
    row, in [0, n_clusters). *)
Class KMeans : Type := {
  fit_predict : Z → Z → list value → Result (list Z);
  fit_predict_n_clusters : ∀ k seed X,
    (k ≤ 0)%Z → fit_predict k seed X = inl ValueError;
  fit_predict_dtype : ∀ k seed X,
    Exists is_word X → fit_predict k seed X = inl ValueError;
  fit_predict_n_samples : ∀ k seed X,
    (Z.of_nat (length X) < k)%Z → fit_predict k seed X = inl ValueError;
  fit_predict_fits : ∀ k seed X,
    (0 < k ≤ Z.of_nat (length X))%Z →
    Forall (λ v, is_Some (finite_number v)) X →
    ∃ ls, fit_predict k seed X = inr ls;
  fit_predict_labels : ∀ k seed X ls,
    fit_predict k seed X = inr ls →
    length ls = length X ∧ Forall (λ l, (0 ≤ l < k)%Z) ls
}.

(** *** [scipy.stats.chisquare] *)

Section scipy.
Context `{!Chi2}.

(** The relative tolerance of the sum check: the square root of the
    double precision epsilon, [2^-26]. *)
Definition rtol : Q := (1 # 67108864)%Q.

(** [relative_diff > rtol] for [relative_diff = |so - se| / min so se],
    with the IEEE results of a division by zero: NaN compares false,
    infinity compares true. *)
Definition diff_gt_tol (f_obs_sum f_exp_sum : Q) : bool :=
  let d := Qabs (f_obs_sum - f_exp_sum) in
  let m := Qmin f_obs_sum f_exp_sum in
  if Qeq_bool m 0 then negb (Qeq_bool d 0)
  else Qltb rtol (d / m).

Definition chisquare (f_obs f_exp : list Q) : Result (Q * option Q) :=
  if decide (length f_obs ≠ length f_exp) then inl ValueError
  else if diff_gt_tol (Qsum f_obs) (Qsum f_exp) then inl ValueError
  else
    let terms := zip_with (λ o e, Qsq (o - e) / e)%Q f_obs f_exp in
    let stat := Qsum terms in
    let num_obs := Z.of_nat (length terms) in
    inr (stat, chi2_sf stat (num_obs - 1 - 0)).

End scipy.

(** *** [pandas.date_range] *)

(** Days from 1970-01-01 to the civil date [y]-[m]-[d]. *)
Definition days_from_civil (y m d : Z) : Z :=
  let y := if (m <=? 2)%Z then (y - 1)%Z else y in
  let era := (y / 400)%Z in
  let yoe := (y - era * 400)%Z in
  let mp := ((m + 9) mod 12)%Z in
  let doy := ((153 * mp + 2) / 5 + d - 1)%Z in
  let doe := (yoe * 365 + yoe / 4 - yoe / 100 + doy)%Z in
  (era * 146097 + doe - 719468)%Z.

(** The instant [y]-[m]-[d]T00:00, in minutes. *)
Definition Timestamp (y m d : Z) : Z := (days_from_civil y m d * 1440)%Z.

(** [pd.date_range(start=start, periods=periods, freq="min")] *)
Definition date_range (start periods : Z) : Result (list value) :=
  if decide (periods < 0)%Z then inl ValueError
  else inr (map (λ i, VTime (start + Z.of_nat i)) (seq 0 (Z.to_nat periods))).

(** ** analysis.py: [calculate_metrics] *)

Record Metrics : Type := mkMetrics {
  num_unique : nat;
  num_total : nat;
  proportion_unique : Q;
  most_common : value;
  count_most_common : nat
}.

(** Python's [a / b] on two [int]s. *)
Definition truediv (a b : nat) : Result Q :=
  if decide (b = 0) then inl ZeroDivisionError
  else inr (Z.of_nat a # Pos.of_nat b)%Q.

Definition calculate_metrics (data : DataFrame) (column : string)
  : Result Metrics :=
  (s <- getitem data column ;;
   let num_unique := Series.nunique s in
   s <- getitem data column ;;
   let num_total := length s in
   proportion_unique <- truediv num_unique num_total ;;
   s <- getitem data column ;;
   most_common <- Series.getitem0 (Series.mode s) ;;
   s <- getitem data column ;;
   count_most_common <- Series.iloc0 (Series.value_counts s) ;;
   inr (mkMetrics num_unique num_total proportion_unique
          most_common count_most_common))%result.

(** ** testing.py: [perform_chi_square_test] *)

Definition Qnat (n : nat) : Q := inject_Z (Z.of_nat n).

Definition perform_chi_square_test `{!Chi2} (data : DataFrame)
    (column : string) : Result (Q * option Q) :=
  (s <- getitem data column ;;
   let observed := map snd (Series.value_counts s) in
   e <- truediv (index_len data) (length observed) ;;
   let expected := replicate (length observed) e in
   chisquare (map Qnat observed) expected)%result.

(** ** The interpreter state *)

Definition loc : Set := positive.

Section world.
Context {Rng : Type} `{!RandomState Rng}.

(** Frames live in a heap and are passed by reference; [np_random] is
    numpy's global generator; a file holds the table written to it. *)
Record World : Type := mkWorld {
  heap : gmap loc DataFrame;
  np_random : Rng;
  files : gmap string DataFrame;
  stdout : list string
}.

Definition Py (A : Type) : Type := World → World * Result A.

Definition ret {A : Type} (a : A) : Py A := λ w, (w, inr a).

Definition raise {A : Type} (e : PyExn) : Py A := λ w, (w, inl e).

Definition bind {A B : Type} (m : Py A) (k : A → Py B) : Py B :=
  λ w, match m w with
       | (w', inr a) => k a w'
       | (w', inl e) => (w', inl e)
       end.

Definition lift {A : Type} (r : Result A) : Py A := λ w, (w, r).

(** Reading through a reference.  Every reference a program holds is
    allocated; the error branch is for totality only. *)
Definition deref (l : loc) : Py DataFrame :=
  λ w, match heap w !! l with
       | Some df => (w, inr df)
       | None => (w, inl KeyError)
       end.

Definition store (l : loc) (df : DataFrame) : Py () :=
  λ w, (mkWorld (<[l := df]> (heap w)) (np_random w) (files w) (stdout w),
        inr ()).

Definition alloc (df : DataFrame) : Py loc :=
  λ w, let l := fresh (dom (heap w)) in
       (mkWorld (<[l := df]> (heap w)) (np_random w) (files w) (stdout w),
        inr l).

Definition print (line : string) : Py () :=
  λ w, (mkWorld (heap w) (np_random w) (files w) (stdout w ++ [line]),
        inr ()).

(** [df.to_csv(filename, index=False)] *)
Definition to_csv (l : loc) (filename : string) : Py () :=
  bind (deref l) (λ df w,
    (mkWorld (heap w) (np_random w) (<[filename := df]> (files w))
       (stdout w), inr ())).

(** [np.random.seed(n)] *)
Definition np_random_seed (n : Z) : Py () :=
  λ w, (mkWorld (heap w) (rs_seed n) (files w) (stdout w), inr ()).

End world.

Arguments World Rng : clear implicits.
Arguments Py Rng A : clear implicits.

Declare Scope py_scope.
Delimit Scope py_scope with py.
Notation "x <- m ;; k" := (bind m (λ x, k))
  (at level 100, m at next level, right associativity) : py_scope.
Notation "m ;; k" := (bind m (λ _, k))
  (at level 100, right associativity) : py_scope.

(** ** numpy: [np.random.choice] on the global generator *)

Section numpy.
Context {Rng : Type} `{!RandomState Rng}.

(** [n] successive draws of [gen], threading the generator state. *)
Fixpoint draws {A : Type} (gen : Rng → A * Rng) (n : nat) (g : Rng)
  : list A * Rng :=
  match n with
  | O => ([], g)
  | S n' =>
      let '(x, g1) := gen g in
      let '(xs, g2) := draws gen n' g1 in
      (x :: xs, g2)
  end.

(** A draw of [size] numbers from the global generator; a negative
    [size] is a negative dimension. *)
Definition sample {A : Type} (gen : Rng → A * Rng) (size : Z)
  : Py Rng (list A) :=
  λ w, if decide (size < 0)%Z then (w, inl ValueError)
       else
         let '(xs, g) := draws gen (Z.to_nat size) (np_random w) in
         (mkWorld (heap w) g (files w) (stdout w), inr xs).

Fixpoint cumsum_from (acc : Q) (p : list Q) : list Q :=
  match p with
  | [] => []
  | x :: p' => (acc + x)%Q :: cumsum_from (acc + x)%Q p'
  end.

Definition cumsum (p : list Q) : list Q := cumsum_from 0%Q p.

(** [cdf.searchsorted(u, side='right')] on an ascending [cdf]: the number
    of entries that are at most [u]. *)
Definition searchsorted_right (cdf : list Q) (u : Q) : nat :=
  length (filter (λ c, Qle_bool c u = true) cdf).

(** [a[idx]] for an index array. *)
Fixpoint take (a : list value) (idx : list nat) : Result (list value) :=
  match idx with
  | [] => inr []
  | i :: idx' =>
      match a !! i with
      | None => inl IndexError
      | Some v => (vs <- take a idx' ;; inr (v :: vs))%result
      end
  end.

(** The tolerance of the check that [p] sums to one: the square root of
    the double precision epsilon, [2^-26]. *)
Definition atol : Q := (1 # 67108864)%Q.

Definition choice (a : list value) (size : Z) (p : option (list Q))
  : Py Rng (list value) :=
  let pop_size := length a in
  if decide (pop_size = 0 ∧ size ≠ 0%Z) then raise ValueError
  else
    match p with
    | Some p =>
        if decide (length p ≠ pop_size) then raise ValueError
        else if existsb (λ x, Qltb x 0) p then raise ValueError
        else if Qltb atol (Qabs (Qsum p - 1)) then raise ValueError
        else
          let cdf := cumsum p in
          match last cdf with
          | None => raise IndexError
          | Some total =>
              let cdf := map (λ c, c / total)%Q cdf in
              (uniform_samples <- sample random_sample size ;;
               lift (take a (map (searchsorted_right cdf)
                               uniform_samples)))%py
          end
    | None =>
        (idx <- sample (randint (Z.of_nat pop_size)) size ;;
         lift (take a (map Z.to_nat idx)))%py
    end.

End numpy.

(** ** data_processing.py: [generate_random_dataset] *)

Section data_processing.
Context {Rng : Type} `{!RandomState Rng}.

Definition response_values : list value :=
  map VInt [1; 2; 3; 4; 5; 6; 7; 8; 9; 10]%Z.

Definition response_weights : list Q :=
  [0.1; 0.15; 0.05; 0.1; 0.2; 0.1; 0.1; 0.1; 0.05; 0.05]%Q.

Definition category_values : list value :=
  map VStr ["A"; "B"; "C"; "D"].

Definition generate_random_dataset (filename : string) (num_rows : Z)
  : Py Rng loc :=
  (np_random_seed 42 ;;
   responses <- choice response_values num_rows (Some response_weights) ;;
   categories <- choice category_values num_rows None ;;
   timestamps <- lift (date_range (Timestamp 2024 1 1) num_rows) ;;
   frame <- lift (DataFrame_of_dict [("response", responses);
                                     ("category", categories);
                                     ("timestamp", timestamps)]) ;;
   df <- alloc frame ;;
   to_csv df filename ;;
   print ("Dataset saved to: " +:+ filename) ;;
   ret df)%py.

End data_processing.

(** ** analysis.py: [perform_clustering] *)

Section analysis.
Context {Rng : Type} `{!KMeans}.

Definition perform_clustering (data : loc) (column : string)
    (n_clusters : Z) : Py Rng loc :=
  (frame <- deref data ;;
   X <- lift (getitem frame column) ;;
   labels <- lift (fit_predict n_clusters 0 X) ;;
   frame' <- lift (setitem frame "cluster" (map VInt labels)) ;;
   store data frame' ;;
   print ("Clustering complete. Added 'cluster' column with "
          +:+ pretty n_clusters +:+ " clusters.") ;;
   ret data)%py.

End analysis.

(** ** Observing the outcome of a call *)

(** The frame behind the reference a call returned, or the exception it
    raised. *)
Definition returned_frame {Rng : Type} (r : World Rng * Result loc)
  : Result DataFrame :=
  match r with
  | (_, inl e) => inl e
  | (w, inr l) =>
      match heap w !! l with
      | Some frame => inr frame
      | None => inl KeyError
      end
  end.

(** The [cluster] column of that frame. *)
Definition returned_labels {Rng : Type} (r : World Rng * Result loc)
  : Result (list value) :=
  (frame <- returned_frame r ;; getitem frame "cluster")%result.

(** ** Columns without missing cells *)

Definition no_missing (s : list value) : Prop :=
  Forall (λ x, x ≠ VNaN) s.

Global Instance no_missing_dec s : Decision (no_missing s).
Proof. unfold no_missing; apply _. Defined.

(** ** The specification's wording, for comparison *)

(** [a] comes no later than [b] when the cells of [s] are ordered by
    descending frequency, then by ascending natural order. *)
Definition ranks_before (s : list value) (a b : value) : Prop :=
  Series.count b s < Series.count a s
  ∨ (Series.count a s = Series.count b s ∧ value_le a b).

(** The expected frequency of a bucket: total rows over the number of
    distinct observed values. *)
Definition uniform_expected (total_rows distinct : nat) : Q :=
  (Qnat total_rows / Qnat distinct)%Q.

(** The sum, over the distinct observed values, of
    (observed - expected)^2 / expected. *)
Definition pearson_statistic (total_rows : nat) (s : list value) : Q :=
  let e := uniform_expected total_rows (Series.nunique s) in
  Qsum (map (λ v, Qsq (Qnat (Series.count v s) - e) / e)%Q (Series.unique s)).

(** ** Sample data *)

(** The frame of tests/test_analysis.py. *)
Definition test_frame : DataFrame :=
  mkFrame 6 [("response", map VInt [1; 2; 2; 3; 3; 3]%Z)].

(** [pd.DataFrame()]: no row, no column. *)
Definition empty_frame : DataFrame := mkFrame 0 [].

(** A column with rows and no present cell. *)
Definition missing_frame : DataFrame :=
  mkFrame 2 [("response", [VNaN; VNaN])].

(** A column with one present cell among four. *)
Definition sparse_frame : DataFrame :=
  mkFrame 4 [("response", [VInt 1; VNaN; VNaN; VNaN])].

(** A column with two distinct values and a missing cell. *)
Definition gap_frame : DataFrame :=
  mkFrame 3 [("response", [VInt 1; VInt 2; VNaN])].



(** ** Executable instances of the library interfaces

    Small implementations of the three interfaces, used to run the model on
    concrete inputs. *)

(** A linear congruential generator. *)
Module Lcg.

Definition modulus : positive := 2147483648.

Definition step (g : Z) : Z := ((1103515245 * g + 12345) mod Zpos modulus)%Z.

Definition seed (n : Z) : Z := (n mod Zpos modulus)%Z.

Definition random_sample (g : Z) : Q * Z := (step g # modulus, step g)%Q.

Definition randint (n g : Z) : Z * Z := ((step g mod n)%Z, step g).

Definition rng : RandomState Z.
Proof.
refine (Build_RandomState Z seed random_sample randint _ _).
- intros g.
  assert (0 ≤ step g < Zpos modulus)%Z by (by apply Z.mod_pos_bound).
  unfold Qle, Qlt; simpl. lia.
- intros n g Hn. simpl. by apply Z.mod_pos_bound.
Defined.

End Lcg.

(** A decreasing rational function with the range of a survival function. *)
Module RationalSf.

Definition sf (x : Q) (df : Z) : option Q :=
if decide (df ≤ 0)%Z then None
else if Qle_bool x 0 then Some 1%Q
else Some (/ (1 + x))%Q.

Definition chi2 : Chi2.
Proof.
refine (Build_Chi2 sf _ _ _).
- intros x df Hdf. unfold sf. by rewrite decide_True.
- intros x df Hdf Hx. unfold sf. rewrite decide_False by lia.
  assert (Qle_bool x 0 = true) as -> by (apply Qle_bool_iff; lra). done.
- intros x df Hdf Hx. unfold sf. rewrite decide_False by lia.
  destruct (Qle_bool x 0); eexists; (split; [done|]); [lra|].
  split.
  + apply Qinv_le_0_compat. lra.
  + apply Qle_shift_inv_r; lra.
Defined.

End RationalSf.

(** A labelling of numeric cells by their residue modulo the number of
    clusters; a column with any other cell is refused. *)
Module ResidueLabels.

Definition label (k : Z) (v : value) : Z :=
  match finite_number v with
  | Some z => (z mod k)%Z
  | None => 0%Z
  end.

Definition fit_predict (k seed : Z) (X : list value) : Result (list Z) :=
  if decide (k ≤ 0)%Z then inl ValueError
  else if decide (Forall (λ v, is_Some (finite_number v)) X) then
    if decide (Z.of_nat (length X) < k)%Z then inl ValueError
    else inr (map (label k) X)
  else inl ValueError.

Definition kmeans : KMeans.
Proof.
  refine (Build_KMeans fit_predict _ _ _ _ _).
  - intros k seed X Hk. unfold fit_predict. by rewrite decide_True.
  - intros k seed X HX. unfold fit_predict.
    case_decide; [done|]. rewrite decide_False; [done|].
    intros Hall. apply Exists_exists in HX as (v & Hv & Hword).
    rewrite Forall_forall in Hall. destruct (Hall v Hv) as [z Hz].
    destruct v as [?|s|?|]; try done. simpl in Hword, Hz.
    case_decide as Hlen; [|done]. destruct s as [|c s]; [simpl in Hlen; lia|].
    simpl in Hword, Hz. apply andb_true_iff in Hword as [Hc _].
    unfold is_letter in Hc. apply bool_decide_eq_true in Hc.
    unfold digit_value in Hz. case_decide; [lia|done].
  - intros k seed X HX. unfold fit_predict.
    case_decide; [done|]. case_decide; [|done]. by rewrite decide_True.
  - intros k seed X Hk HX. unfold fit_predict.
    rewrite decide_False, decide_True, decide_False by (done || lia).
    by eexists.
  - intros k seed X ls. unfold fit_predict.
    case_decide; [done|]. case_decide; [|done]. case_decide; [done|].
    intros [= <-].
    split; [apply length_map|]. apply Forall_forall.
    intros l (v & -> & _)%list_elem_of_fmap. unfold label.
    destruct (finite_number v); [|lia]. apply Z.mod_pos_bound. lia.
Defined.

End ResidueLabels.

(** * Properties *)

(** ** Orders *)

Global Instance value_le_trans : Transitive value_le.
Proof.
  intros [x|s|x|] [y|t|y|] [z|u|z|]; simpl; try done; try lia.
  apply (transitivity (R := String.le)).
Qed.

Global Instance value_le_total : Total value_le.
Proof.
  intros [x|s|x|] [y|t|y|]; simpl; auto; try lia.
  apply (total String.le).
Qed.

Global Instance value_le_antisym : AntiSymm (=) value_le.
Proof.
  intros [x|s|x|] [y|t|y|]; simpl; try done; intros H1 H2; f_equal;
    try lia.
  by apply (anti_symm String.le).
Qed.

Global Instance freq_ge_trans : Transitive Series.freq_ge.
Proof. unfold Series.freq_ge; intros a b c; lia. Qed.

Global Instance freq_ge_total : Total Series.freq_ge.
Proof. unfold Series.freq_ge; intros a b; lia. Qed.

(** ** Counting in a column *)

Section series_facts.
Implicit Types (s t seen U : list value) (v x : value).

Lemma elem_of_unique_from seen s v :
  v ∈ Series.unique_from seen s ↔ v ∈ s ∧ v ∉ seen.
Proof.
  revert seen; induction s as [|x s IH]; intros seen; simpl.
  - rewrite elem_of_nil; tauto.
  - case_decide as Hx; rewrite ?elem_of_cons, IH, ?elem_of_cons.
    + split; [tauto|]. intros [[->|?] ?]; tauto.
    + destruct (decide (v = x)) as [->|]; tauto.
Qed.

Lemma NoDup_unique_from seen s : NoDup (Series.unique_from seen s).
Proof.
  revert seen; induction s as [|x s IH]; intros seen; simpl.
  - constructor.
  - case_decide; [apply IH|]. constructor; [|apply IH].
    rewrite elem_of_unique_from, elem_of_cons; tauto.
Qed.

Lemma elem_of_distinct t v : v ∈ Series.distinct t ↔ v ∈ t.
Proof.
  unfold Series.distinct; rewrite elem_of_unique_from, elem_of_nil; tauto.
Qed.

Lemma NoDup_distinct t : NoDup (Series.distinct t).
Proof. apply NoDup_unique_from. Qed.

Lemma occurrences_cons v x t :
  Series.occurrences v (x :: t)
  = (if decide (x = v) then 1 else 0) + Series.occurrences v t.
Proof.
  unfold Series.occurrences. rewrite filter_cons. by case_decide.
Qed.

Lemma occurrences_pos v t : v ∈ t ↔ 0 < Series.occurrences v t.
Proof.
  induction t as [|x t IH].
  - rewrite elem_of_nil. unfold Series.occurrences; simpl. lia.
  - rewrite occurrences_cons, elem_of_cons, IH.
    case_decide as E; simpl.
    + split; [lia|]. intros _. by left.
    + split; [intros [->|?]; [done|lia]|]. intros ?. right. lia.
Qed.

Lemma sum_indicator x U :
  NoDup U → x ∈ U →
  sum_list (map (λ v, if decide (x = v) then 1 else 0) U) = 1.
Proof.
  induction 1 as [|u U Hu HU IH]; intros Hx; [by apply elem_of_nil in Hx|].
  simpl. apply elem_of_cons in Hx. case_decide as E.
  - subst u. f_equal. clear IH Hx.
    induction U as [|u' U IH']; [done|]. simpl.
    apply not_elem_of_cons in Hu as [? ?]. inversion_clear HU.
    case_decide; [done|]. by apply IH'.
  - destruct Hx as [?|Hx]; [done|]. by rewrite IH.
Qed.

(** The occurrences of the distinct cells add up to the number of cells. *)
Lemma sum_occurrences U t :
  NoDup U → (∀ x, x ∈ t → x ∈ U) →
  sum_list (map (λ v, Series.occurrences v t) U) = length t.
Proof.
  intros HU. induction t as [|x t IH]; intros Hin.
  - clear. induction U as [|u U IHU]; [done|]. simpl. by rewrite IHU.
  - transitivity
      (sum_list (map (λ v, if decide (x = v) then 1 else 0) U)
       + sum_list (map (λ v, Series.occurrences v t) U)).
    + clear. induction U as [|u U IHU]; [done|]. simpl.
      rewrite occurrences_cons, IHU. lia.
    + rewrite sum_indicator by (done || apply Hin; left).
      rewrite IH by (intros; apply Hin; by right). done.
Qed.

(** *** With missing cells dropped *)

Lemma elem_of_dropna s v : v ∈ Series.dropna s ↔ v ∈ s ∧ v ≠ VNaN.
Proof. unfold Series.dropna. rewrite list_elem_of_filter. tauto. Qed.

Lemma dropna_no_missing s : no_missing s → Series.dropna s = s.
Proof.
  unfold no_missing, Series.dropna. induction 1 as [|x s Hx _ IH]; [done|].
  by rewrite filter_cons, decide_True, IH.
Qed.

Lemma dropna_length s : length (Series.dropna s) ≤ length s.
Proof. apply length_filter. Qed.

(** Nothing was dropped exactly when no cell is missing. *)
Lemma dropna_length_eq s :
  length (Series.dropna s) = length s ↔ no_missing s.
Proof.
  split.
  - intros Hlen. apply Forall_forall. intros x Hx Hnan.
    assert (Hlt : length (filter (λ x, x ≠ VNaN) s) < length s).
    { apply (length_filter_lt _ _ x Hx). by intros ?. }
    unfold Series.dropna in Hlen. lia.
  - intros Hs. by rewrite dropna_no_missing.
Qed.

Lemma elem_of_unique s v : v ∈ Series.unique s ↔ v ∈ s ∧ v ≠ VNaN.
Proof.
  unfold Series.unique. by rewrite elem_of_distinct, elem_of_dropna.
Qed.

Lemma NoDup_unique s : NoDup (Series.unique s).
Proof. apply NoDup_distinct. Qed.

Lemma unique_nil_inv s : Series.unique s = [] → Series.dropna s = [].
Proof.
  unfold Series.unique. destruct (Series.dropna s) as [|x t]; [done|].
  intros H.
  assert (Hx : x ∈ Series.distinct (x :: t))
    by (apply elem_of_distinct; left).
  rewrite H in Hx. by apply elem_of_nil in Hx.
Qed.

Lemma nunique_pos s : Series.dropna s ≠ [] → 0 < Series.nunique s.
Proof.
  intros Hs. unfold Series.nunique.
  destruct (Series.unique s) eqn:E; simpl; [|lia].
  by apply unique_nil_inv in E.
Qed.

Lemma count_le_dropna v s : Series.count v s ≤ length (Series.dropna s).
Proof. apply length_filter. Qed.

Lemma count_le_length v s : Series.count v s ≤ length s.
Proof.
  pose proof (count_le_dropna v s). pose proof (dropna_length s). lia.
Qed.

Lemma count_pos v s : v ∈ s ∧ v ≠ VNaN ↔ 0 < Series.count v s.
Proof.
  unfold Series.count. by rewrite <- occurrences_pos, elem_of_dropna.
Qed.

Lemma count_missing s : Series.count VNaN s = 0.
Proof.
  destruct (Series.count VNaN s) eqn:E; [done|].
  assert (H : 0 < Series.count VNaN s) by lia.
  apply count_pos in H as [_ H]. done.
Qed.

Lemma sum_counts_unique s :
  sum_list (map (λ v, Series.count v s) (Series.unique s))
  = length (Series.dropna s).
Proof.
  apply sum_occurrences; [apply NoDup_distinct|].
  intros; by apply elem_of_distinct.
Qed.

End series_facts.

(** ** [value_counts] and [mode] *)

Section ranking_facts.
Implicit Types (s : list value) (v : value) (r : value * nat).

Lemma value_counts_perm s :
  Series.value_counts s ≡ₚ map (λ v, (v, Series.count v s)) (Series.unique s).
Proof. apply merge_sort_Permutation. Qed.

Lemma length_value_counts s :
  length (Series.value_counts s) = Series.nunique s.
Proof.
  rewrite value_counts_perm. apply length_map.
Qed.

Lemma counts_perm s :
  map snd (Series.value_counts s)
  ≡ₚ map (λ v, Series.count v s) (Series.unique s).
Proof.
  rewrite value_counts_perm, map_map. done.
Qed.

Lemma elem_of_value_counts s r :
  r ∈ Series.value_counts s
  ↔ (r.1 ∈ s ∧ r.1 ≠ VNaN) ∧ r.2 = Series.count r.1 s.
Proof.
  rewrite value_counts_perm, list_elem_of_fmap. split.
  - intros (v & -> & Hv). rewrite elem_of_unique in Hv. by simpl.
  - intros [H1 H2]. exists r.1. rewrite elem_of_unique.
    split; [|done]. destruct r; simpl in *; by subst.
Qed.

Lemma max_count_ge s v : v ∈ s → Series.count v s ≤ Series.max_count s.
Proof.
  intros Hv. destruct (decide (v = VNaN)) as [->|Hne].
  { rewrite count_missing. lia. }
  apply max_list_elem_of_le, list_elem_of_fmap.
  exists v. by rewrite elem_of_unique.
Qed.

Lemma max_count_attained s :
  Series.dropna s ≠ [] →
  ∃ v, (v ∈ s ∧ v ≠ VNaN) ∧ Series.count v s = Series.max_count s.
Proof.
  intros Hs.
  assert (Hne : map (λ v, Series.count v s) (Series.unique s) ≠ []).
  { intros E. apply map_eq_nil, unique_nil_inv in E. done. }
  apply max_list_elem_of, list_elem_of_fmap in Hne as (v & E & Hv).
  exists v. by rewrite <- elem_of_unique.
Qed.

Lemma max_count_pos s : Series.dropna s ≠ [] → 0 < Series.max_count s.
Proof.
  intros Hs. destruct (max_count_attained s Hs) as (v & Hv & <-).
  by apply count_pos.
Qed.

(** The first row of [value_counts] carries the largest count. *)
Lemma value_counts_head s r rest :
  Series.value_counts s = r :: rest → r.2 = Series.max_count s.
Proof.
  intros E.
  assert (Hr : r ∈ Series.value_counts s) by (rewrite E; left).
  apply elem_of_value_counts in Hr as [[Hr1 Hr1'] Hr2].
  assert (Hs : Series.dropna s ≠ []).
  { intros Hnil. assert (Hin : r.1 ∈ Series.dropna s)
      by (by apply elem_of_dropna).
    rewrite Hnil in Hin. by apply elem_of_nil in Hin. }
  apply Nat.le_antisymm.
  { rewrite Hr2. by apply max_count_ge. }
  destruct (max_count_attained s Hs) as (v & Hv & <-).
  assert (Hin : (v, Series.count v s) ∈ Series.value_counts s)
    by (by apply elem_of_value_counts).
  pose proof (StronglySorted_merge_sort Series.freq_ge
                (map (λ v, (v, Series.count v s)) (Series.unique s))) as Hsort.
  fold (Series.value_counts s) in Hsort. rewrite E in Hsort, Hin.
  apply elem_of_cons in Hin as [<-|Hin]; [done|].
  apply StronglySorted_inv in Hsort as [_ Hall].
  rewrite Forall_forall in Hall. apply (Hall _ Hin).
Qed.

Lemma comparable_subseteq (l l' : list value) :
  l' ⊆ l → comparable l → comparable l'.
Proof.
  intros Hsub [H|[H|H]]; [left|right; left|right; right];
    rewrite Forall_forall in *; auto.
Qed.

Lemma comparable_modes s :
  comparable (Series.dropna s) →
  comparable (filter (λ v, Series.count v s = Series.max_count s)
                (Series.unique s)).
Proof.
  apply comparable_subseteq. intros v Hv.
  apply list_elem_of_filter in Hv as [_ Hv].
  apply elem_of_dropna. by apply elem_of_unique.
Qed.

(** The modes of a column of one dtype come out sorted. *)
Lemma mode_comparable s :
  comparable (Series.dropna s) →
  Series.mode s
  = merge_sort value_le
      (filter (λ v, Series.count v s = Series.max_count s) (Series.unique s)).
Proof.
  intros Hs. unfold Series.mode.
  by rewrite decide_True by (by apply comparable_modes).
Qed.

Lemma mode_perm_modes s :
  Series.mode s
  ≡ₚ filter (λ v, Series.count v s = Series.max_count s) (Series.unique s).
Proof.
  unfold Series.mode. destruct (decide _); [|done].
  apply merge_sort_Permutation.
Qed.

Lemma elem_of_mode s v :
  v ∈ Series.mode s
  ↔ (v ∈ s ∧ v ≠ VNaN) ∧ Series.count v s = Series.max_count s.
Proof.
  rewrite mode_perm_modes, list_elem_of_filter, elem_of_unique.
  tauto.
Qed.

(** A column with a present cell has a mode. *)
Lemma mode_nonempty s : Series.dropna s ≠ [] → Series.mode s ≠ [].
Proof.
  intros Hs E. destruct (max_count_attained s Hs) as (v & Hv & Hc).
  assert (Hin : v ∈ Series.mode s) by (by apply elem_of_mode).
  rewrite E in Hin. by apply elem_of_nil in Hin.
Qed.

(** A column without a present cell has none. *)
Lemma mode_all_missing s : Series.dropna s = [] → Series.mode s = [].
Proof.
  intros Hs. destruct (Series.mode s) as [|m rest] eqn:E; [done|].
  assert (Hm : m ∈ Series.mode s) by (rewrite E; left).
  apply elem_of_mode in Hm as [Hm _]. apply elem_of_dropna in Hm.
  rewrite Hs in Hm. by apply elem_of_nil in Hm.
Qed.

(** The first mode is one of the most frequent cells, the least of them in
    a column of one dtype. *)
Lemma mode_head s m rest :
  Series.mode s = m :: rest →
  (m ∈ s ∧ m ≠ VNaN) ∧ Series.count m s = Series.max_count s
  ∧ (comparable (Series.dropna s) →
     ∀ v, v ∈ s → Series.count v s = Series.max_count s → value_le m v).
Proof.
  intros E.
  assert (Hm : m ∈ Series.mode s) by (rewrite E; left).
  apply elem_of_mode in Hm as [Hm1 Hm2]. do 2 (split; [done|]).
  intros Hdtype v Hv Hc. destruct (decide (v = VNaN)) as [->|Hne].
  { by destruct m. }
  assert (Hin : v ∈ Series.mode s) by (by apply elem_of_mode).
  pose proof (StronglySorted_merge_sort value_le
    (filter (λ v, Series.count v s = Series.max_count s) (Series.unique s)))
    as Hsort.
  rewrite <- (mode_comparable s Hdtype) in Hsort. rewrite E in Hsort, Hin.
  apply elem_of_cons in Hin as [->|Hin].
  { destruct (total value_le m m); done. }
  apply StronglySorted_inv in Hsort as [_ Hall].
  rewrite Forall_forall in Hall. apply (Hall _ Hin).
Qed.

Lemma sum_list_le_max (l : list nat) : sum_list l ≤ length l * max_list l.
Proof.
  induction l as [|n l IH]; simpl; [done|]. nia.
Qed.

End ranking_facts.

(** ** [calculate_metrics] *)

Section metrics_facts.
Implicit Types (data : DataFrame) (column : string) (s : list value).

Lemma truediv_spec a b :
  b ≠ 0 → ∃ q, truediv a b = inr q ∧ (q == Qnat a / Qnat b)%Q.
Proof.
  intros Hb. unfold truediv. rewrite decide_False by done.
  eexists; split; [done|]. unfold Qnat.
  rewrite Qmake_Qdiv. by rewrite <- (Znat.positive_nat_Z (Pos.of_nat b)),
    Nat2Pos.id by done.
Qed.

Lemma getitem_rectangular data column s :
  rectangular data → getitem data column = inr s →
  length s = index_len data.
Proof.
  unfold rectangular, getitem. destruct data as [n cols]; simpl.
  intros Hrect Hget.
  destruct (col_lookup column cols) as [s'|] eqn:E; [|done].
  injection Hget as ->. induction cols as [|[name c] cols IH]; [done|].
  simpl in E. apply Forall_cons in Hrect as [Hc Hrect].
  case_decide; [by injection E as ->|]. by apply IH.
Qed.

(** What a successful call computed. *)
Lemma calculate_metrics_inv data column m :
  calculate_metrics data column = inr m →
  ∃ s, getitem data column = inr s ∧ Series.dropna s ≠ []
    ∧ num_unique m = Series.nunique s
    ∧ num_total m = length s
    ∧ (proportion_unique m
       == Qnat (Series.nunique s) / Qnat (length s))%Q
    ∧ (most_common m ∈ s ∧ most_common m ≠ VNaN)
    ∧ Series.count (most_common m) s = Series.max_count s
    ∧ (comparable (Series.dropna s) →
       ∀ v, v ∈ s → Series.count v s = Series.max_count s →
            value_le (most_common m) v)
    ∧ count_most_common m = Series.max_count s.
Proof.
  unfold calculate_metrics.
  destruct (getitem data column) as [e|s] eqn:Hget; simpl; [done|].
  unfold truediv. case_decide as Hlen; simpl; [done|].
  destruct (Series.mode s) as [|mc rest] eqn:Hmode; simpl; [done|].
  destruct (Series.value_counts s) as [|r rest'] eqn:Hvc; simpl; [done|].
  intros [= <-]; simpl. exists s.
  destruct (mode_head _ _ _ Hmode) as (H1 & H2 & H3).
  assert (Hs : Series.dropna s ≠ []).
  { intros Hnil. apply mode_all_missing in Hnil. by rewrite Hnil in Hmode. }
  destruct (truediv_spec (Series.nunique s) (length s) Hlen)
    as (q & Hq & Hq').
  unfold truediv in Hq. rewrite decide_False in Hq by done.
  injection Hq as <-.
  do 8 (split; [done || assumption|]). by apply value_counts_head in Hvc.
Qed.

(** A column with a present cell is always measured. *)
Lemma calculate_metrics_total data column s :
  getitem data column = inr s → Series.dropna s ≠ [] →
  ∃ m, calculate_metrics data column = inr m.
Proof.
  intros Hget Hs. unfold calculate_metrics. rewrite Hget; simpl.
  unfold truediv. rewrite decide_False.
  2:{ intros Hlen. apply nil_length_inv in Hlen. by subst s. }
  simpl. destruct (Series.mode s) as [|mc rest] eqn:Hmode.
  { by apply mode_nonempty in Hmode. }
  simpl. destruct (Series.value_counts s) as [|r rest'] eqn:Hvc.
  { apply (f_equal length) in Hvc. rewrite length_value_counts in Hvc.
    pose proof (nunique_pos s Hs). simpl in Hvc. lia. }
  simpl. by eexists.
Qed.

(** A column with rows but no present cell has no mode to take. *)
Lemma calculate_metrics_all_missing data column s :
  getitem data column = inr s → s ≠ [] → Series.dropna s = [] →
  calculate_metrics data column = inl KeyError.
Proof.
  intros Hget Hs Hnil. unfold calculate_metrics. rewrite Hget; simpl.
  unfold truediv. rewrite decide_False.
  2:{ intros Hlen. by apply nil_length_inv in Hlen. }
  simpl. by rewrite (mode_all_missing s Hnil).
Qed.

Lemma max_count_pigeonhole s :
  length (Series.dropna s) ≤ Series.max_count s * Series.nunique s.
Proof.
  rewrite <- (sum_counts_unique s).
  etransitivity; [apply sum_list_le_max|].
  rewrite length_map. fold (Series.max_count s). unfold Series.nunique. lia.
Qed.

End metrics_facts.

(** C3, as stated, fails: a column that exists and has rows, all of them
    missing, has no mode, and [mode()[0]] raises. *)
Lemma calculate_metrics_missing_column_no_result :
  ¬ (∀ data column s,
       getitem data column = inr s → s ≠ [] →
       ∃ m, calculate_metrics data column = inr m).
Proof.
  intros H.
  destruct (H missing_frame "response" [VNaN; VNaN] eq_refl) as [m Hm];
    [done|].
  discriminate Hm.
Qed.

(** C3, amended.  On a column that exists and has at least one cell that
    is not missing, [calculate_metrics] succeeds; [num_total] counts every
    row and [num_unique] the distinct present values; [proportion_unique]
    is [num_unique] over [num_total]; [most_common] is a present cell of
    the greatest frequency, and [count_most_common] is the number of its
    occurrences.  When the present cells have one dtype, [most_common] is
    the cell that comes first when the cells are ordered by descending
    frequency and then by ascending natural order (and it is the only such
    cell).  On [response = [1,2,2,3,3,3]] the result has [num_unique = 3],
    [num_total = 6], [most_common = 3] and [count_most_common = 3]. *)
Theorem calculate_metrics_most_common :
  (∀ data column s,
     getitem data column = inr s → Series.dropna s ≠ [] →
     ∃ m, calculate_metrics data column = inr m
       ∧ num_unique m = Series.nunique s
       ∧ num_total m = length s
       ∧ (proportion_unique m == Qnat (num_unique m) / Qnat (num_total m))%Q
       ∧ most_common m ∈ s
       ∧ most_common m ≠ VNaN
       ∧ (∀ v, v ∈ s →
            Series.count v s ≤ Series.count (most_common m) s)
       ∧ (comparable (Series.dropna s) →
          (∀ v, v ∈ s → ranks_before s (most_common m) v)
          ∧ (∀ v', v' ∈ s → (∀ v, v ∈ s → ranks_before s v' v) →
                   v' = most_common m))
       ∧ count_most_common m = Series.count (most_common m) s)
  ∧ (∃ m, calculate_metrics test_frame "response" = inr m
       ∧ num_unique m = 3 ∧ num_total m = 6
       ∧ most_common m = VInt 3 ∧ count_most_common m = 3).
Proof.
  split; [|by eexists].
  intros data column s Hget Hs.
  destruct (calculate_metrics_total data column s Hget Hs) as [m Hm].
  exists m. split; [done|].
  apply calculate_metrics_inv in Hm
    as (s' & Hget' & _ & Hu & Ht & Hp & [Hin Hpresent] & Hc & Hle & Hcm).
  rewrite Hget in Hget'. injection Hget' as <-.
  rewrite Hu, Ht. do 5 (split; [done|]).
  split; [|split].
  - intros v Hv. rewrite Hc. by apply max_count_ge.
  - intros Hdtype.
    assert (Hfirst : ∀ v, v ∈ s → ranks_before s (most_common m) v).
    { intros v Hv. unfold ranks_before. rewrite Hc.
      pose proof (max_count_ge s v Hv) as Hmax.
      destruct (decide (Series.count v s = Series.max_count s)) as [E|NE].
      - right. split; [done|]. by apply Hle.
      - left. lia. }
    split; [done|]. intros v' Hv' Hall.
    destruct (Hall _ Hin) as [Hlt|[Heq H1]];
      destruct (Hfirst _ Hv') as [Hlt'|[Heq' H2]]; try lia.
    by apply (anti_symm value_le).
  - by rewrite Hc.
Qed.

Lemma calculate_metrics_most_common_witness :
  getitem test_frame "response" = inr (map VInt [1; 2; 2; 3; 3; 3]%Z)
  ∧ ∃ m, calculate_metrics test_frame "response" = inr m
      ∧ num_unique m = Series.nunique (map VInt [1; 2; 2; 3; 3; 3]%Z)
      ∧ most_common m ∈ map VInt [1; 2; 2; 3; 3; 3]%Z.
Proof.
  split; [reflexivity|].
  destruct (proj1 calculate_metrics_most_common test_frame "response"
              (map VInt [1; 2; 2; 3; 3; 3]%Z) eq_refl)
    as (m & Hm & Hu & _ & _ & Hin & _); [discriminate|].
  exists m. split; [exact Hm|]. split; [exact Hu|exact Hin].
Defined.

(** C10, as stated, fails: on [1, NaN, NaN, NaN] the call succeeds with
    one distinct value counted once among four rows. *)
Lemma calculate_metrics_missing_cells_not_counted :
  ¬ (∀ data column m,
       calculate_metrics data column = inr m →
       num_total m ≤ count_most_common m * num_unique m).
Proof.
  intros H.
  specialize (H sparse_frame "response" _ eq_refl). simpl in H. lia.
Qed.

(** C10, amended.  Whenever [calculate_metrics] succeeds, the most common
    value occurs at least the average number of times per distinct value
    among the cells that are not missing:
    [count_most_common * num_unique] is at least the number of present
    cells, hence at least [num_total] when no cell is missing; moreover
    [1 <= count_most_common <= num_total]. *)
Theorem calculate_metrics_pigeonhole data column s m :
  getitem data column = inr s →
  calculate_metrics data column = inr m →
  length (Series.dropna s) ≤ count_most_common m * num_unique m
  ∧ (no_missing s → num_total m ≤ count_most_common m * num_unique m)
  ∧ count_most_common m ≤ num_total m
  ∧ 1 ≤ count_most_common m.
Proof.
  intros Hget Hm.
  apply calculate_metrics_inv in Hm
    as (s' & Hget' & Hs & Hu & Ht & _ & Hin & Hc & _ & Hcm).
  rewrite Hget in Hget'. injection Hget' as <-.
  pose proof (max_count_pigeonhole s) as Hpig.
  rewrite Hu, Ht, Hcm. split; [done|]. split; [|split].
  - intros Hfull. by rewrite <- (dropna_no_missing s Hfull) at 1.
  - rewrite <- Hc. apply count_le_length.
  - rewrite <- Hc. by apply count_pos.
Qed.

Lemma calculate_metrics_pigeonhole_witness :
  ∃ m, calculate_metrics test_frame "response" = inr m
    ∧ length (Series.dropna (map VInt [1; 2; 2; 3; 3; 3]%Z))
      ≤ count_most_common m * num_unique m
    ∧ count_most_common m ≤ num_total m
    ∧ 1 ≤ count_most_common m.
Proof.
  eexists. split; [reflexivity|].
  destruct (calculate_metrics_pigeonhole test_frame "response"
              (map VInt [1; 2; 2; 3; 3; 3]%Z) _ eq_refl eq_refl)
    as (H1 & _ & H2 & H3).
  split; [exact H1|]. split; [exact H2|exact H3].
Defined.

(** C7, as stated, fails: a frame with rows whose column is in the schema
    is not always measured; when every cell of the column is missing,
    [mode()] is empty and [mode()[0]] raises [KeyError]. *)
Lemma calculate_metrics_missing_column_raises :
  ¬ (∀ data column,
       rectangular data →
       (col_lookup column (columns data) = None →
          calculate_metrics data column = inl KeyError)
       ∧ (is_Some (col_lookup column (columns data)) → index_len data = 0 →
          calculate_metrics data column = inl ZeroDivisionError)
       ∧ (is_Some (col_lookup column (columns data)) → index_len data ≠ 0 →
          ∃ m, calculate_metrics data column = inr m)).
Proof.
  intros H.
  destruct (H missing_frame "response") as (_ & _ & Hsucc).
  { by repeat constructor. }
  destruct Hsucc as [m Hm]; [by eexists|done|]. discriminate Hm.
Qed.

(** C7, amended.  [calculate_metrics] raises [KeyError] (the unknown-column
    failure) for every column absent from the schema, whatever the number of
    rows.  For a column of the schema it raises [ZeroDivisionError] (the
    empty-column failure) when the frame has zero rows; it raises
    [KeyError], from [mode()[0]], when the frame has rows and every cell of
    the column is missing; it returns a result whenever some cell of the
    column is present. *)
Theorem calculate_metrics_failures data column :
  rectangular data →
  (col_lookup column (columns data) = None →
     calculate_metrics data column = inl KeyError)
  ∧ (∀ s, col_lookup column (columns data) = Some s →
       (index_len data = 0 →
          calculate_metrics data column = inl ZeroDivisionError)
       ∧ (index_len data ≠ 0 → Series.dropna s = [] →
          calculate_metrics data column = inl KeyError)
       ∧ (Series.dropna s ≠ [] →
          ∃ m, calculate_metrics data column = inr m)).
Proof.
  intros Hrect. split.
  - intros E. unfold calculate_metrics, getitem. by rewrite E.
  - intros s E.
    assert (Hget : getitem data column = inr s)
      by (unfold getitem; by rewrite E).
    pose proof (getitem_rectangular _ _ _ Hrect Hget) as Hlen.
    split; [|split].
    + intros Hn. unfold calculate_metrics. rewrite Hget; simpl.
      unfold truediv. rewrite decide_True by lia. done.
    + intros Hn Hnil. apply (calculate_metrics_all_missing _ _ s); try done.
      intros ->. simpl in Hlen. lia.
    + by apply calculate_metrics_total.
Qed.

Lemma calculate_metrics_failures_witness :
  rectangular test_frame
  ∧ calculate_metrics test_frame "category" = inl KeyError
  ∧ calculate_metrics empty_frame "response" = inl KeyError
  ∧ calculate_metrics (mkFrame 0 [("response", [])]) "response"
    = inl ZeroDivisionError
  ∧ calculate_metrics missing_frame "response" = inl KeyError
  ∧ ∃ m, calculate_metrics test_frame "response" = inr m.
Proof.
  assert (Hrect : rectangular test_frame) by (by repeat constructor).
  split; [exact Hrect|]. split; [|split; [|split; [|split]]].
  - apply (calculate_metrics_failures test_frame "category" Hrect).
    reflexivity.
  - apply (calculate_metrics_failures empty_frame "response");
      [by constructor|reflexivity].
  - apply (proj2 (calculate_metrics_failures
                    (mkFrame 0 [("response", [])]) "response"
                    ltac:(by repeat constructor)) []);
      reflexivity.
  - apply (proj2 (calculate_metrics_failures missing_frame "response"
                    ltac:(by repeat constructor)) [VNaN; VNaN]);
      [reflexivity|discriminate|reflexivity].
  - apply (proj2 (calculate_metrics_failures test_frame "response" Hrect)
             (map VInt [1; 2; 2; 3; 3; 3]%Z)); [reflexivity|discriminate].
Defined.

(** ** Sums of rationals *)

Section rational_facts.
Open Scope Q_scope.

Lemma Qsum_perm (l l' : list Q) : l ≡ₚ l' → Qsum l == Qsum l'.
Proof.
  induction 1 as [|x l l' _ IH|x y l|l l' l'' _ IH1 _ IH2]; simpl.
  - reflexivity.
  - by rewrite IH.
  - ring.
  - by rewrite IH1.
Qed.

Lemma Qsum_ext {A : Type} (f g : A → Q) (l : list A) :
  (∀ x, x ∈ l → f x == g x) → Qsum (map f l) == Qsum (map g l).
Proof.
  induction l as [|a l IH]; intros H; simpl; [reflexivity|].
  rewrite (H a) by left. rewrite IH; [reflexivity|].
  intros; apply H; by right.
Qed.

Lemma Qsum_zero {A : Type} (f : A → Q) (l : list A) :
  (∀ x, x ∈ l → f x == 0) → Qsum (map f l) == 0.
Proof.
  induction l as [|a l IH]; intros H; simpl; [reflexivity|].
  rewrite (H a) by left. rewrite IH; [ring|].
  intros; apply H; by right.
Qed.

Lemma Qsum_nonneg {A : Type} (f : A → Q) (l : list A) :
  (∀ x, x ∈ l → 0 <= f x) → 0 <= Qsum (map f l).
Proof.
  induction l as [|a l IH]; intros H; simpl; [apply Qle_refl|].
  assert (0 <= f a) by (apply H; left).
  assert (0 <= Qsum (map f l)) by (apply IH; intros; apply H; by right).
  lra.
Qed.

Lemma Qnat_plus (a b : nat) : Qnat (a + b) == Qnat a + Qnat b.
Proof. unfold Qnat. by rewrite Nat2Z.inj_add, inject_Z_plus. Qed.

Lemma Qnat_mult (a b : nat) : Qnat (a * b) == Qnat a * Qnat b.
Proof. unfold Qnat. by rewrite Nat2Z.inj_mul, inject_Z_mult. Qed.

Lemma Qnat_pos (a : nat) : (0 < a)%nat → 0 < Qnat a.
Proof.
  intros H. unfold Qnat. rewrite <- (Zlt_Qlt 0). lia.
Qed.

Lemma Qsum_Qnat (l : list nat) : Qsum (map Qnat l) == Qnat (sum_list l).
Proof.
  induction l as [|n l IH]; simpl; [reflexivity|].
  by rewrite IH, Qnat_plus.
Qed.

Lemma Qsum_replicate (k : nat) (e : Q) :
  Qsum (replicate k e) == Qnat k * e.
Proof.
  induction k as [|k IH]; simpl; [unfold Qnat; simpl; ring|].
  rewrite IH. change (S k) with (1 + k)%nat. rewrite Qnat_plus.
  unfold Qnat at 2; simpl. ring.
Qed.

(** Equal sums pass the relative-difference check of [chisquare]. *)
Lemma diff_gt_tol_eq (a b : Q) : a == b → diff_gt_tol a b = false.
Proof.
  intros E. unfold diff_gt_tol.
  assert (Hd : Qabs (a - b) == 0).
  { assert (H0 : a - b == 0) by lra. rewrite H0. reflexivity. }
  destruct (Qeq_bool (Qmin a b) 0) eqn:Hm.
  - apply negb_false_iff, Qeq_bool_iff, Hd.
  - unfold Qltb. apply negb_false_iff, Qle_bool_iff.
    rewrite Hd. unfold Qdiv. rewrite Qmult_0_l. unfold rtol. done.
Qed.

Lemma Qeq_bool_proper (x x' y y' : Q) :
  x == x' → y == y' → Qeq_bool x y = Qeq_bool x' y'.
Proof.
  intros Hx Hy.
  destruct (Qeq_bool x y) eqn:E1, (Qeq_bool x' y') eqn:E2; try done.
  - apply Qeq_bool_iff in E1. apply Qeq_bool_neq in E2. lra.
  - apply Qeq_bool_iff in E2. apply Qeq_bool_neq in E1. lra.
Qed.

Lemma Qle_bool_proper (x x' y y' : Q) :
  x == x' → y == y' → Qle_bool x y = Qle_bool x' y'.
Proof.
  intros Hx Hy.
  destruct (Qle_bool x y) eqn:E1, (Qle_bool x' y') eqn:E2; try done.
  - apply Qle_bool_iff in E1.
    assert (¬ x' <= y') by (rewrite <- Qle_bool_iff; congruence). lra.
  - apply Qle_bool_iff in E2.
    assert (¬ x <= y) by (rewrite <- Qle_bool_iff; congruence). lra.
Qed.

(** The sum check looks at the values of the sums only. *)
Lemma diff_gt_tol_proper (a a' b b' : Q) :
  a == a' → b == b' → diff_gt_tol a b = diff_gt_tol a' b'.
Proof.
  intros Ha Hb. unfold diff_gt_tol, Qltb.
  assert (Hd : Qabs (a - b) == Qabs (a' - b')) by (by rewrite Ha, Hb).
  assert (Hm : Qmin a b == Qmin a' b') by (by rewrite Ha, Hb).
  rewrite (Qeq_bool_proper _ (Qmin a' b') 0 0 Hm) by reflexivity.
  rewrite (Qeq_bool_proper _ (Qabs (a' - b')) 0 0 Hd) by reflexivity.
  rewrite (Qle_bool_proper (Qabs (a - b) / Qmin a b)
             (Qabs (a' - b') / Qmin a' b') rtol rtol); [done| |reflexivity].
  by rewrite Hd, Hm.
Qed.



Lemma Qsq_nonneg (x : Q) : 0 <= Qsq x.
Proof. unfold Qsq. nra. Qed.

Lemma pearson_term_nonneg (o e : Q) : 0 < e → 0 <= Qsq (o - e) / e.
Proof.
  intros He. apply Qle_shift_div_l; [done|].
  rewrite Qmult_0_l. apply Qsq_nonneg.
Qed.

End rational_facts.

(** ** [perform_chi_square_test] *)

Section chi_square_facts.
Context `{!Chi2}.
Implicit Types (data : DataFrame) (column : string) (s : list value).
Open Scope Q_scope.

(** The observed frequencies add up to the number of present cells. *)
Lemma sum_observed s :
  Qsum (map Qnat (map snd (Series.value_counts s)))
  == Qnat (length (Series.dropna s)).
Proof.
  rewrite Qsum_Qnat, counts_perm, sum_counts_unique. reflexivity.
Qed.

(** On a column with a present cell the test reaches [chisquare], whose
    sum check compares the number of present cells with the number of
    rows. *)
Lemma perform_chi_square_test_check data column s :
  getitem data column = inr s → Series.dropna s ≠ [] →
  ∃ stat,
    stat == pearson_statistic (index_len data) s
    ∧ perform_chi_square_test data column
      = if diff_gt_tol (Qnat (length (Series.dropna s)))
             (Qnat (index_len data))
        then inl ValueError
        else inr (stat, chi2_sf stat (Z.of_nat (Series.nunique s) - 1)).
Proof.
  intros Hget Hs.
  pose proof (nunique_pos s Hs) as Hk.
  unfold perform_chi_square_test. rewrite Hget; simpl.
  rewrite length_map, length_value_counts.
  unfold truediv. rewrite decide_False by lia. simpl.
  set (e := (Z.of_nat (index_len data) # Pos.of_nat (Series.nunique s))).
  assert (He : e == uniform_expected (index_len data) (Series.nunique s)).
  { destruct (truediv_spec (index_len data) (Series.nunique s))
      as (q & Hq & Hq'); [lia|].
    unfold truediv in Hq. rewrite decide_False in Hq by lia.
    injection Hq as <-. exact Hq'. }
  assert (Hk' : ¬ Qnat (Series.nunique s) == 0).
  { pose proof (Qnat_pos _ Hk). lra. }
  unfold chisquare.
  rewrite decide_False
    by (rewrite !length_map, length_replicate, length_value_counts; tauto).
  rewrite (diff_gt_tol_proper _ (Qnat (length (Series.dropna s)))
             _ (Qnat (index_len data))).
  2:{ apply sum_observed. }
  2:{ rewrite Qsum_replicate, He. unfold uniform_expected. field.
      exact Hk'. }
  rewrite zip_with_replicate_r_eq
    by (rewrite !length_map; apply length_value_counts).
  eexists; split; cycle 1.
  { destruct (diff_gt_tol _ _); [done|]. do 3 f_equal.
    rewrite ?length_fmap, ?length_map, ?length_value_counts. lia. }
  unfold pearson_statistic, flip.
  change (?f <$> ?l) with (map f l). rewrite map_map.
  etransitivity.
  { apply Qsum_perm, Permutation_map, counts_perm. }
  rewrite map_map. apply Qsum_ext. intros v _.
  unfold Qsq. rewrite He. reflexivity.
Qed.

(** On a column without missing cells the test runs to the end of
    [chisquare]. *)
Lemma perform_chi_square_test_run data column s :
  rectangular data → getitem data column = inr s →
  no_missing s → s ≠ [] →
  ∃ stat,
    perform_chi_square_test data column
    = inr (stat, chi2_sf stat (Z.of_nat (Series.nunique s) - 1))
    ∧ stat == pearson_statistic (index_len data) s.
Proof.
  intros Hrect Hget Hfull Hs.
  pose proof (getitem_rectangular _ _ _ Hrect Hget) as Hlen.
  pose proof (dropna_no_missing s Hfull) as Hdrop.
  destruct (perform_chi_square_test_check data column s Hget)
    as (stat & Hstat & Hrun); [by rewrite Hdrop|].
  rewrite Hdrop, Hlen, diff_gt_tol_eq in Hrun by reflexivity.
  by exists stat.
Qed.

(** What a returned statistic is. *)
Lemma perform_chi_square_test_inv data column s stat p :
  getitem data column = inr s →
  perform_chi_square_test data column = inr (stat, p) →
  Series.dropna s ≠ []
  ∧ stat == pearson_statistic (index_len data) s
  ∧ p = chi2_sf stat (Z.of_nat (Series.nunique s) - 1).
Proof.
  intros Hget Htest.
  assert (Hs : Series.dropna s ≠ []).
  { intros Hnil. unfold perform_chi_square_test in Htest.
    rewrite Hget in Htest. simpl in Htest.
    rewrite length_map, length_value_counts in Htest.
    unfold Series.nunique, Series.unique in Htest.
    rewrite Hnil in Htest. done. }
  split; [done|].
  destruct (perform_chi_square_test_check data column s Hget Hs)
    as (stat' & Hstat & Hrun).
  rewrite Hrun in Htest. destruct (diff_gt_tol _ _); [done|].
  injection Htest as <- <-. done.
Qed.

Lemma uniform_expected_pos n k :
  (0 < n)%nat → (0 < k)%nat → 0 < uniform_expected n k.
Proof.
  intros Hn Hk. unfold uniform_expected.
  apply Qlt_shift_div_l; [by apply Qnat_pos|].
  rewrite Qmult_0_l. by apply Qnat_pos.
Qed.


(** Equal frequencies leave no deviation from the expectation. *)
Lemma pearson_statistic_uniform s :
  no_missing s → s ≠ [] →
  (∀ u v, u ∈ s → v ∈ s → Series.count u s = Series.count v s) →
  pearson_statistic (length s) s == 0.
Proof.
  intros Hfull Hs Heq. unfold pearson_statistic. apply Qsum_zero.
  intros v Hv. rewrite elem_of_unique in Hv. destruct Hv as [Hv _].
  pose proof (dropna_no_missing s Hfull) as Hdrop.
  assert (Hk : (0 < Series.nunique s)%nat)
    by (apply nunique_pos; by rewrite Hdrop).
  assert (Hsum : (Series.nunique s * Series.count v s = length s)%nat).
  { rewrite <- Hdrop at 3. rewrite <- (sum_counts_unique s).
    unfold Series.nunique.
    symmetry. apply (sum_list_fmap_same (Series.count v s)).
    apply Forall_forall. intros u Hu. rewrite elem_of_unique in Hu.
    apply Heq; tauto. }
  assert (Hk' : ¬ Qnat (Series.nunique s) == 0).
  { pose proof (Qnat_pos _ Hk). lra. }
  assert (Hc : Qnat (Series.count v s)
               == uniform_expected (length s) (Series.nunique s)).
  { unfold uniform_expected. rewrite <- Hsum, Qnat_mult. by field. }
  unfold Qsq. rewrite Hc. unfold Qdiv. ring.
Qed.


End chi_square_facts.

(** C1, as stated, fails: on [1, 2, NaN], a column with two distinct
    values and three rows, the expected frequencies add up to the three
    rows and the observed ones to the two present cells, and [chisquare]
    raises [ValueError]. *)
Lemma perform_chi_square_test_missing_cell :
  ¬ (∃ sf : Chi2, ∀ data column s,
       rectangular data → getitem data column = inr s →
       2 ≤ Series.nunique s → 1 ≤ length s →
       ∃ stat p, @perform_chi_square_test sf data column = inr (stat, p)).
Proof.
  intros [sf H].
  destruct (H gap_frame "response" [VInt 1; VInt 2; VNaN])
    as (stat & p & Hrun).
  - by repeat constructor.
  - reflexivity.
  - vm_compute. lia.
  - simpl. lia.
  - vm_compute in Hrun. discriminate Hrun.
Qed.

(** C1, amended.  On a column with at least two distinct values, at least
    one row and no missing cell, [perform_chi_square_test] returns as
    statistic the sum, over the distinct observed values, of
    (observed - expected)^2 / expected, where expected is the number of
    rows over the number of distinct observed values; values that never
    occur contribute no bucket.  The p-value is that of the chi-square
    distribution with [distinct - 1] degrees of freedom.  When all distinct
    values occur equally often the statistic is 0 and the p-value is 1. *)
Theorem perform_chi_square_test_statistic `{!Chi2} data column s :
  rectangular data → getitem data column = inr s →
  no_missing s →
  2 ≤ Series.nunique s → 1 ≤ length s →
  ∃ stat p,
    perform_chi_square_test data column = inr (stat, p)
    ∧ (stat == pearson_statistic (index_len data) s)%Q
    ∧ p = chi2_sf stat (Z.of_nat (Series.nunique s) - 1)
    ∧ ((∀ u v, u ∈ s → v ∈ s → Series.count u s = Series.count v s) →
       (stat == 0)%Q ∧ p = Some 1%Q).
Proof.
  intros Hrect Hget Hfull Hk Hn.
  assert (Hs : s ≠ []) by (intros ->; simpl in Hn; lia).
  destruct (perform_chi_square_test_run data column s Hrect Hget Hfull Hs)
    as (stat & Hrun & Hstat).
  exists stat, (chi2_sf stat (Z.of_nat (Series.nunique s) - 1)).
  do 3 (split; [done|]). intros Heq.
  assert (H0 : (stat == 0)%Q).
  { rewrite Hstat, <- (getitem_rectangular _ _ _ Hrect Hget).
    by apply pearson_statistic_uniform. }
  split; [done|]. apply chi2_sf_zero; [lia|done].
Qed.

Lemma perform_chi_square_test_statistic_witness :
  ∃ stat p,
    @perform_chi_square_test RationalSf.chi2 test_frame "response"
    = inr (stat, p)
    ∧ (stat == pearson_statistic 6 (map VInt [1; 2; 2; 3; 3; 3]%Z))%Q.
Proof.
  destruct (@perform_chi_square_test_statistic RationalSf.chi2
              test_frame "response" (map VInt [1; 2; 2; 3; 3; 3]%Z))
    as (stat & p & Hrun & Hstat & _).
  - by repeat constructor.
  - reflexivity.
  - by repeat constructor.
  - vm_compute. lia.
  - simpl. lia.
  - exists stat, p. split; [exact Hrun|exact Hstat].
Defined.




(** ** The generator and [np.random.choice] *)

Section numpy_facts.
Context {Rng : Type} `{!RandomState Rng}.
Implicit Types (w : World Rng) (a : list value) (p : list Q) (size : Z).

Lemma draws_length {A : Type} (gen : Rng → A * Rng) n g :
  length (draws gen n g).1 = n.
Proof.
  revert g; induction n as [|n IH]; intros g; simpl; [done|].
  destruct (gen g) as [x g1]. specialize (IH g1).
  destruct (draws gen n g1) as [xs g2]. simpl in *. by rewrite IH.
Qed.

Lemma draws_Forall {A : Type} (gen : Rng → A * Rng) (P : A → Prop) n g :
  (∀ g, P (gen g).1) → Forall P (draws gen n g).1.
Proof.
  intros HP. revert g; induction n as [|n IH]; intros g; simpl.
  { constructor. }
  pose proof (HP g) as Hx. destruct (gen g) as [x g1]. specialize (IH g1).
  destruct (draws gen n g1) as [xs g2]. simpl in *. by constructor.
Qed.

(** [sample] reads and writes the generator only. *)
Lemma sample_eq {A : Type} (gen : Rng → A * Rng) size w :
  sample gen size w
  = if decide (size < 0)%Z then (w, inl ValueError)
    else (mkWorld (heap w)
            (draws gen (Z.to_nat size) (np_random w)).2 (files w) (stdout w),
          inr (draws gen (Z.to_nat size) (np_random w)).1).
Proof.
  unfold sample. case_decide; [done|].
  by destruct (draws gen (Z.to_nat size) (np_random w)).
Qed.

Lemma take_in_range a idx :
  Forall (λ i, i < length a) idx →
  ∃ vs, take a idx = inr vs ∧ length vs = length idx
    ∧ Forall (λ v, v ∈ a) vs.
Proof.
  induction 1 as [|i idx Hi _ (vs & E & Hlen & Hall)]; simpl.
  { exists []. by repeat split. }
  destruct (lookup_lt_is_Some_2 a i Hi) as [v Hv]. rewrite Hv, E. simpl.
  exists (v :: vs). repeat split; [by rewrite <- Hlen|].
  constructor; [|done]. by eapply list_elem_of_lookup_2.
Qed.

(** An index found below the last entry of the table is in range. *)
Lemma searchsorted_right_lt (cdf : list Q) (u c : Q) :
  last cdf = Some c → (u < c)%Q →
  searchsorted_right cdf u < length cdf.
Proof.
  intros Hlast Hu. unfold searchsorted_right.
  apply (length_filter_lt _ _ c).
  - apply last_Some in Hlast as [l' ->]. apply elem_of_app. right. left.
  - rewrite Qle_bool_iff. lra.
Qed.

Lemma last_map {A B : Type} (f : A → B) (l : list A) :
  last (map f l) = f <$> last l.
Proof.
  induction l as [|x [|y l] IH]; [done..|]. exact IH.
Qed.

Lemma length_cumsum_from acc p : length (cumsum_from acc p) = length p.
Proof.
  revert acc; induction p as [|x p IH]; intros acc; simpl; [done|].
  by rewrite IH.
Qed.

(** What [choice] does to the world: it advances the generator and
    touches nothing else; its value depends on the generator alone. *)
Lemma choice_frame a size po w1 w2 :
  np_random w1 = np_random w2 →
  (choice a size po w1).2 = (choice a size po w2).2
  ∧ np_random (choice a size po w1).1 = np_random (choice a size po w2).1
  ∧ heap (choice a size po w1).1 = heap w1
  ∧ files (choice a size po w1).1 = files w1
  ∧ stdout (choice a size po w1).1 = stdout w1.
Proof.
  intros Hg. unfold choice, raise, bind, lift.
  case_decide; [done|].
  destruct po as [p|].
  - case_decide; [done|].
    destruct (existsb _ p); [done|].
    destruct (Qltb atol _); [done|].
    destruct (last (cumsum p)); [|done].
    rewrite !sample_eq, Hg. by case_decide.
  - rewrite !sample_eq, Hg. by case_decide.
Qed.

(** A draw with weights that pass the validation. *)
Lemma choice_weighted a p size w total :
  a ≠ [] → length p = length a →
  existsb (λ x, Qltb x 0) p = false →
  Qltb atol (Qabs (Qsum p - 1)) = false →
  last (cumsum p) = Some total → (0 < total)%Q →
  (0 ≤ size)%Z →
  ∃ vs, (choice a size (Some p) w).2 = inr vs
    ∧ length vs = Z.to_nat size ∧ Forall (λ v, v ∈ a) vs.
Proof.
  intros Ha Hlen Hneg Hsum Hlast Htotal Hsize.
  unfold choice, raise, bind, lift.
  rewrite decide_False by (intros [Hl _]; by destruct a).
  rewrite decide_False by naive_solver.
  rewrite Hneg, Hsum, Hlast, sample_eq, decide_False by lia. simpl.
  set (us := (draws random_sample (Z.to_nat size) (np_random w)).1).
  set (cdf := map (λ c, c / total)%Q (cumsum p)).
  destruct (take_in_range a (map (searchsorted_right cdf) us))
    as (vs & E & Hl & Hall).
  { apply Forall_forall. intros i (u & -> & Hu)%list_elem_of_fmap.
    assert (Hrange : (u < 1)%Q).
    { assert (Hall : Forall (λ u, (0 <= u)%Q ∧ (u < 1)%Q) us)
        by apply draws_Forall, random_sample_range.
      rewrite Forall_forall in Hall. by apply Hall. }
    replace (length a) with (length cdf)
      by (unfold cdf, cumsum; by rewrite length_map, length_cumsum_from).
    apply (searchsorted_right_lt cdf u (total / total)%Q).
    - unfold cdf. by rewrite last_map, Hlast.
    - assert ((total / total == 1)%Q) as -> by (field; lra). done. }
  exists vs. split; [done|]. split; [|done].
  rewrite Hl, length_map. apply draws_length.
Qed.

(** A uniform draw from a non-empty population. *)
Lemma choice_uniform a size w :
  a ≠ [] → (0 ≤ size)%Z →
  ∃ vs, (choice a size None w).2 = inr vs
    ∧ length vs = Z.to_nat size ∧ Forall (λ v, v ∈ a) vs.
Proof.
  intros Ha Hsize. unfold choice, raise, bind, lift.
  rewrite decide_False by (intros [Hl _]; by destruct a).
  rewrite sample_eq, decide_False by lia. simpl.
  set (idx := (draws (randint (Z.of_nat (length a))) (Z.to_nat size)
                 (np_random w)).1).
  destruct (take_in_range a (map Z.to_nat idx)) as (vs & E & Hl & Hall).
  { apply Forall_forall. intros i (z & -> & Hz)%list_elem_of_fmap.
    assert (Hall : Forall (λ z, (0 ≤ z < Z.of_nat (length a))%Z) idx).
    { apply draws_Forall. intros g. apply randint_range.
      destruct a; [done|simpl; lia]. }
    rewrite Forall_forall in Hall. specialize (Hall _ Hz). lia. }
  exists vs. split; [done|]. split; [|done].
  rewrite Hl, length_map. apply draws_length.
Qed.

(** A negative size is refused. *)
Lemma choice_negative_size a size po w :
  (size < 0)%Z → (choice a size po w).2 = inl ValueError.
Proof.
  intros Hsize. unfold choice, raise, bind, lift.
  case_decide; [done|]. destruct po as [p|].
  - case_decide; [done|].
    destruct (existsb _ p); [done|].
    destruct (Qltb atol _); [done|].
    destruct (last (cumsum p)) eqn:Hlast.
    + rewrite sample_eq, decide_True by done. done.
    + assert (p = []) as ->.
      { destruct p as [|x p]; [done|]. unfold cumsum in Hlast.
        simpl in Hlast. apply last_None in Hlast.
        by destruct (cumsum_from _ p). }
      destruct a; [|done]. naive_solver lia.
  - rewrite sample_eq, decide_True by done. done.
Qed.

(** Weights that miss 1 by more than [10^-6] are refused. *)
Lemma choice_weights_rejected a size p w :
  (1 # 1000000 < Qabs (Qsum p - 1))%Q →
  choice a size (Some p) w = (w, inl ValueError).
Proof.
  intros Hsum. unfold choice, raise.
  case_decide; [done|]. case_decide; [done|].
  destruct (existsb _ p); [done|].
  assert (Qltb atol (Qabs (Qsum p - 1)) = true) as ->; [|done].
  unfold Qltb. apply negb_true_iff, not_true_iff_false.
  rewrite Qle_bool_iff. unfold atol. intros Hle.
  assert ((1 # 67108864) < 1 # 1000000)%Q by done. lra.
Qed.

End numpy_facts.

(** ** [generate_random_dataset] *)

Section data_processing_facts.
Context {Rng : Type} `{!RandomState Rng}.
Implicit Types (w : World Rng) (filename : string) (num_rows : Z).

(** The run of [generate_random_dataset], call by call. *)
Lemma generate_random_dataset_eq filename num_rows w :
  generate_random_dataset filename num_rows w
  = let w0 := mkWorld (heap w) (rs_seed 42) (files w) (stdout w) in
    match choice response_values num_rows (Some response_weights) w0 with
    | (w1, inl e) => (w1, inl e)
    | (w1, inr responses) =>
        match choice category_values num_rows None w1 with
        | (w2, inl e) => (w2, inl e)
        | (w2, inr categories) =>
            match date_range (Timestamp 2024 1 1) num_rows with
            | inl e => (w2, inl e)
            | inr timestamps =>
                match DataFrame_of_dict [("response", responses);
                                         ("category", categories);
                                         ("timestamp", timestamps)] with
                | inl e => (w2, inl e)
                | inr frame =>
                    let l := fresh (dom (heap w2)) in
                    (mkWorld (<[l := frame]> (heap w2)) (np_random w2)
                       (<[filename := frame]> (files w2))
                       (stdout w2 ++ ["Dataset saved to: " +:+ filename]),
                     inr l)
                end
            end
        end
    end.
Proof.
  unfold generate_random_dataset, bind, np_random_seed. simpl.
  destruct (choice response_values _ _ _) as [w1 [e|responses]]; [done|].
  destruct (choice category_values _ _ _) as [w2 [e|categories]]; [done|].
  unfold lift.
  destruct (date_range _ _) as [e|timestamps]; [done|].
  destruct (DataFrame_of_dict _) as [e|frame]; [done|].
  unfold alloc, to_csv, bind, deref, print, ret. simpl.
  by rewrite lookup_insert_eq.
Qed.

Lemma date_range_spec start periods :
  (0 ≤ periods)%Z →
  ∃ ts, date_range start periods = inr ts
    ∧ length ts = Z.to_nat periods
    ∧ ∀ i, i < Z.to_nat periods →
           ts !! i = Some (VTime (start + Z.of_nat i)).
Proof.
  intros Hp. unfold date_range. rewrite decide_False by lia.
  eexists. split; [done|]. split.
  - by rewrite length_map, length_seq.
  - intros i Hi. rewrite list_lookup_fmap, lookup_seq_lt by done. done.
Qed.

Lemma response_values_range v :
  v ∈ response_values → ∃ z, v = VInt z ∧ (1 ≤ z ≤ 10)%Z.
Proof.
  unfold response_values.
  intros (z & -> & Hz)%list_elem_of_fmap. exists z. split; [done|].
  repeat (apply elem_of_cons in Hz as [->|Hz]; [lia|]).
  by apply elem_of_nil in Hz.
Qed.

(** Every non-negative row count yields a frame of that many rows. *)
Lemma generate_random_dataset_run filename num_rows w :
  (0 ≤ num_rows)%Z →
  ∃ w' l responses categories timestamps,
    generate_random_dataset filename num_rows w = (w', inr l)
    ∧ heap w' !! l
      = Some (mkFrame (Z.to_nat num_rows)
                [("response", responses); ("category", categories);
                 ("timestamp", timestamps)])
    ∧ length responses = Z.to_nat num_rows
    ∧ length categories = Z.to_nat num_rows
    ∧ length timestamps = Z.to_nat num_rows
    ∧ Forall (λ v, ∃ z, v = VInt z ∧ (1 ≤ z ≤ 10)%Z) responses
    ∧ Forall (λ v, v ∈ category_values) categories
    ∧ ∀ i, i < Z.to_nat num_rows →
           timestamps !! i
           = Some (VTime (Timestamp 2024 1 1 + Z.of_nat i)).
Proof.
  intros Hn. rewrite generate_random_dataset_eq. simpl.
  set (w0 := mkWorld _ _ _ _).
  destruct (choice_weighted response_values response_weights num_rows w0
              (Qsum response_weights))
    as (responses & Er & Hlr & Hr); try done.
  destruct (choice response_values _ _ _) as [w1 r1]. simpl in Er. subst r1.
  destruct (choice_uniform category_values num_rows w1)
    as (categories & Ec & Hlc & Hc); try done.
  destruct (choice category_values _ _ _) as [w2 r2]. simpl in Ec. subst r2.
  destruct (date_range_spec (Timestamp 2024 1 1) num_rows Hn)
    as (timestamps & Et & Hlt & Ht).
  rewrite Et. unfold DataFrame_of_dict.
  rewrite decide_True by (repeat constructor; simpl; congruence).
  eexists _, _, responses, categories, timestamps.
  split; [done|]. simpl. rewrite lookup_insert_eq, Hlr.
  repeat split; try done.
  apply Forall_forall. intros v Hv. apply response_values_range.
  rewrite Forall_forall in Hr. by apply Hr.
Qed.

End data_processing_facts.



(** C9, as stated, fails: with [num_rows = 0] the call raises nothing and
    returns a frame without rows. *)
Lemma generate_random_dataset_zero_rows :
  ¬ (∀ (Rng : Type) (rng : RandomState Rng) filename num_rows
       (w : World Rng),
       (num_rows ≤ 0)%Z →
       is_error (@generate_random_dataset Rng rng filename num_rows w).2).
Proof.
  intros H.
  specialize (H Z Lcg.rng "guesses.csv" 0%Z (mkWorld ∅ 0%Z ∅ [])).
  destruct (@generate_random_dataset_run Z Lcg.rng "guesses.csv" 0
              (mkWorld ∅ 0%Z ∅ [])) as (w' & l & ? & ? & ? & Hrun & _);
    [lia|].
  rewrite Hrun in H. apply H. lia.
Qed.

(** C9, amended.  [generate_random_dataset] raises [ValueError] (the
    invalid-argument failure) for every [num_rows < 0]; with [num_rows = 0]
    it returns a frame without rows.  The response weights are constants of
    the function and sum to exactly 1; the draw validates its weights on
    every call and raises [ValueError] for any weights whose sum is further
    than [10^-6] from 1. *)
Theorem generate_random_dataset_failures {Rng : Type} `{!RandomState Rng} :
  (∀ filename num_rows (w : World Rng),
     (num_rows < 0)%Z →
     (generate_random_dataset filename num_rows w).2 = inl ValueError)
  ∧ (∀ filename (w : World Rng),
       ∃ w' l, generate_random_dataset filename 0 w = (w', inr l)
         ∧ ∃ responses categories timestamps,
             heap w' !! l
             = Some (mkFrame 0 [("response", responses);
                                ("category", categories);
                                ("timestamp", timestamps)]))
  ∧ (Qsum response_weights == 1)%Q
  ∧ (∀ a size p (w : World Rng),
       (1 # 1000000 < Qabs (Qsum p - 1))%Q →
       choice a size (Some p) w = (w, inl ValueError)).
Proof.
  split; [|split; [|split]].
  - intros filename num_rows w Hn. rewrite generate_random_dataset_eq.
    simpl. set (w0 := mkWorld _ _ _ _).
    pose proof (choice_negative_size response_values num_rows
                  (Some response_weights) w0 Hn) as E.
    destruct (choice response_values _ _ _) as [w1 r1]. simpl in E.
    by subst r1.
  - intros filename w.
    destruct (generate_random_dataset_run filename 0 w)
      as (w' & l & rs & cs & ts & Hrun & Hheap & _); [lia|].
    exists w', l. split; [done|]. by exists rs, cs, ts.
  - done.
  - intros. by apply choice_weights_rejected.
Qed.

Lemma generate_random_dataset_failures_witness :
  (@generate_random_dataset Z Lcg.rng "guesses.csv" (-1)
     (mkWorld ∅ 0%Z ∅ [])).2 = inl ValueError
  ∧ @choice Z Lcg.rng response_values 5 (Some [0.5; 0.4]%Q)
      (mkWorld ∅ 0%Z ∅ []) = (mkWorld ∅ 0%Z ∅ [], inl ValueError).
Proof.
  split.
  - apply (proj1 (@generate_random_dataset_failures Z Lcg.rng)). lia.
  - apply (proj2 (proj2 (proj2 (@generate_random_dataset_failures Z Lcg.rng)))).
    reflexivity.
Defined.

(** ** [perform_clustering] *)

Section frame_facts.
Implicit Types (c : string) (s : list value)
  (cols : list (string * list value)).

Lemma col_lookup_set_eq c s cols : col_lookup c (col_set c s cols) = Some s.
Proof.
  induction cols as [|[name s'] cols IH]; simpl.
  - by rewrite decide_True.
  - case_decide as E; simpl; [by rewrite decide_True|].
    by rewrite decide_False.
Qed.

Lemma col_lookup_set_ne c c' s cols :
  c' ≠ c → col_lookup c' (col_set c s cols) = col_lookup c' cols.
Proof.
  intros Hne. induction cols as [|[name s'] cols IH]; simpl.
  - by rewrite decide_False.
  - case_decide as E; simpl.
    + subst name. by rewrite !decide_False.
    + by rewrite IH.
Qed.

(** The names keep their order; a new name goes last. *)
Lemma col_set_names c s cols :
  map fst (col_set c s cols)
  = if decide (is_Some (col_lookup c cols)) then map fst cols
    else map fst cols ++ [c].
Proof.
  induction cols as [|[name s'] cols IH]; [reflexivity|]. simpl.
  destruct (decide (name = c)) as [->|Hne]; simpl; [reflexivity|].
  rewrite IH. by case_decide.
Qed.

Lemma col_set_rectangular c s cols n :
  length s = n →
  Forall (λ col, length col.2 = n) cols →
  Forall (λ col, length col.2 = n) (col_set c s cols).
Proof.
  intros Hs. induction 1 as [|[name s'] cols Hc Hcols IH]; simpl.
  - by repeat constructor.
  - case_decide; by constructor.
Qed.

End frame_facts.

Section analysis_facts.
Context {Rng : Type} `{!KMeans}.
Implicit Types (w : World Rng) (data : loc) (column : string) (k : Z).

(** The run of [perform_clustering], call by call. *)
Lemma perform_clustering_eq data column k w :
  perform_clustering data column k w
  = match heap w !! data with
    | None => (w, inl KeyError)
    | Some frame =>
        match getitem frame column with
        | inl e => (w, inl e)
        | inr X =>
            match fit_predict k 0 X with
            | inl e => (w, inl e)
            | inr labels =>
                match setitem frame "cluster" (map VInt labels) with
                | inl e => (w, inl e)
                | inr frame' =>
                    (mkWorld (<[data := frame']> (heap w)) (np_random w)
                       (files w)
                       (stdout w
                        ++ ["Clustering complete. Added 'cluster' column with "
                            +:+ pretty k +:+ " clusters."]),
                     inr data)
                end
            end
        end
    end.
Proof.
  unfold perform_clustering, bind, deref, lift.
  destruct (heap w !! data) as [frame|]; [|done].
  destruct (getitem frame column) as [e|X]; [done|].
  destruct (fit_predict k 0 X) as [e|labels]; [done|].
  by destruct (setitem frame "cluster" (map VInt labels)) as [e|frame'].
Qed.

End analysis_facts.

(** C4. A successful [perform_clustering] returns the reference it was
    given; the frame behind it has the same number of rows, a [cluster]
    column holding one label in [0, n_clusters) per row (replacing a
    previous [cluster] column where it stood, or appended after the other
    columns), and every other column as it was, in the same order; no other
    frame of the heap changes. *)
Theorem perform_clustering_appends {Rng : Type} `{!KMeans}
    (data : loc) (column : string) (n_clusters : Z)
    (w w' : World Rng) (l : loc) (frame : DataFrame) :
  heap w !! data = Some frame →
  perform_clustering data column n_clusters w = (w', inr l) →
  l = data
  ∧ ∃ labels frame',
      heap w' !! data = Some frame'
      ∧ index_len frame' = index_len frame
      ∧ length labels = index_len frame
      ∧ Forall (λ c, (0 ≤ c < n_clusters)%Z) labels
      ∧ col_lookup "cluster" (columns frame') = Some (map VInt labels)
      ∧ (∀ c, c ≠ "cluster" →
              col_lookup c (columns frame') = col_lookup c (columns frame))
      ∧ map fst (columns frame')
        = (if decide (is_Some (col_lookup "cluster" (columns frame)))
           then map fst (columns frame)
           else map fst (columns frame) ++ ["cluster"])
      ∧ (rectangular frame → rectangular frame')
      ∧ (∀ l', l' ≠ data → heap w' !! l' = heap w !! l').
Proof.
  intros Hheap. rewrite perform_clustering_eq, Hheap.
  destruct (getitem frame column) as [e|X]; [done|].
  destruct (fit_predict n_clusters 0 X) as [e|labels] eqn:Hfit; [done|].
  unfold setitem. case_decide as Hlen; [|done].
  intros [= <- <-]. split; [done|].
  exists labels, (mkFrame (index_len frame)
                    (col_set "cluster" (map VInt labels) (columns frame))).
  simpl. rewrite lookup_insert_eq. rewrite length_map in Hlen.
  apply fit_predict_labels in Hfit as [_ Hrange].
  repeat split; try done.
  - apply col_lookup_set_eq.
  - intros c Hc. by apply col_lookup_set_ne.
  - apply col_set_names.
  - unfold rectangular; simpl. intros Hrect.
    apply col_set_rectangular; [by rewrite length_map|done].
  - intros l' Hl'. by rewrite lookup_insert_ne.
Qed.

Lemma perform_clustering_appends_witness :
  ∃ labels frame',
    heap (@perform_clustering Z ResidueLabels.kmeans 1%positive
            "response" 3 (mkWorld {[1%positive := test_frame]} 0%Z ∅ [])).1
      !! 1%positive = Some frame'
    ∧ index_len frame' = 6
    ∧ col_lookup "cluster" (columns frame') = Some (map VInt labels)
    ∧ col_lookup "response" (columns frame')
      = col_lookup "response" (columns test_frame).
Proof.
  destruct (@perform_clustering_appends Z ResidueLabels.kmeans
              1%positive "response" 3
              (mkWorld {[1%positive := test_frame]} 0%Z ∅ [])
              (@perform_clustering Z ResidueLabels.kmeans 1%positive
                 "response" 3
                 (mkWorld {[1%positive := test_frame]} 0%Z ∅ [])).1
              1%positive test_frame)
    as (_ & labels & frame' & Hheap & Hrows & _ & _ & Hcl & Hother & _).
  - reflexivity.
  - reflexivity.
  - exists labels, frame'. split; [exact Hheap|]. split; [exact Hrows|].
    split; [exact Hcl|]. apply Hother. discriminate.
Defined.




(** C6. [generate_random_dataset] and [perform_clustering] are
    deterministic.  Two calls of [generate_random_dataset] with the same
    [num_rows] return equal frames (or raise the same exception), whatever
    the file name, the state of the global generator and the rest of the
    world at each call.  Two calls of [perform_clustering] with the same
    [n_clusters] on frames of equal height whose clustered columns are
    equal assign equal [cluster] columns (or raise the same exception),
    again whatever the rest of the world. *)
Theorem pipeline_deterministic {Rng : Type} `{!RandomState Rng} `{!KMeans} :
  (∀ filename1 filename2 num_rows (w1 w2 : World Rng),
     returned_frame (generate_random_dataset filename1 num_rows w1)
     = returned_frame (generate_random_dataset filename2 num_rows w2))
  ∧ (∀ data1 data2 column n_clusters (w1 w2 : World Rng) frame1 frame2,
       heap w1 !! data1 = Some frame1 →
       heap w2 !! data2 = Some frame2 →
       index_len frame1 = index_len frame2 →
       getitem frame1 column = getitem frame2 column →
       returned_labels (perform_clustering data1 column n_clusters w1)
       = returned_labels (perform_clustering data2 column n_clusters w2)).
Proof.
  split.
  - intros f1 f2 n w1 w2. rewrite !generate_random_dataset_eq. simpl.
    set (wa := mkWorld (heap w1) _ _ _). set (wb := mkWorld (heap w2) _ _ _).
    destruct (choice_frame response_values n (Some response_weights) wa wb
                eq_refl) as (Hr & Hg & _).
    destruct (choice response_values n _ wa) as [wa1 ra].
    destruct (choice response_values n _ wb) as [wb1 rb].
    simpl in Hr, Hg. subst rb. destruct ra as [e|responses]; [done|].
    destruct (choice_frame category_values n None wa1 wb1 Hg)
      as (Hc & Hg' & _).
    destruct (choice category_values n None wa1) as [wa2 ca].
    destruct (choice category_values n None wb1) as [wb2 cb].
    simpl in Hc, Hg'. subst cb. destruct ca as [e|categories]; [done|].
    destruct (date_range _ n) as [e|timestamps]; [done|].
    destruct (DataFrame_of_dict _) as [e|frame]; [done|].
    simpl. by rewrite !lookup_insert_eq.
  - intros d1 d2 column k w1 w2 frame1 frame2 H1 H2 Hrows Hcol.
    rewrite !perform_clustering_eq, H1, H2, Hcol.
    destruct (getitem frame2 column) as [e|X]; [done|].
    destruct (fit_predict k 0 X) as [e|labels]; [done|].
    unfold setitem. rewrite Hrows. case_decide; [|done].
    unfold returned_labels, returned_frame, getitem. simpl.
    rewrite !lookup_insert_eq. simpl. by rewrite !col_lookup_set_eq.
Qed.

Lemma pipeline_deterministic_witness :
  returned_labels
    (@perform_clustering Z ResidueLabels.kmeans 1%positive "response" 3
       (mkWorld {[1%positive := test_frame]} 0%Z ∅ []))
  = returned_labels
      (@perform_clustering Z ResidueLabels.kmeans 2%positive "response" 3
         (mkWorld {[2%positive := test_frame]} 7%Z ∅ ["hello"])).
Proof.
  apply (proj2 (@pipeline_deterministic Z Lcg.rng ResidueLabels.kmeans)
           1%positive 2%positive "response" 3%Z
           (mkWorld {[1%positive := test_frame]} 0%Z ∅ [])
           (mkWorld {[2%positive := test_frame]} 7%Z ∅ ["hello"])
           test_frame test_frame); reflexivity.
Defined.

(** * Further properties *)

(** ** Columns up to the order of their rows *)

Section row_order_facts.
Implicit Types (s t : list value) (v : value).

Lemma dropna_perm s1 s2 : s1 ≡ₚ s2 → Series.dropna s1 ≡ₚ Series.dropna s2.
Proof. intros Hp. unfold Series.dropna. by rewrite Hp. Qed.

Lemma count_perm v s1 s2 : s1 ≡ₚ s2 → Series.count v s1 = Series.count v s2.
Proof.
  intros Hp. unfold Series.count, Series.occurrences.
  by rewrite (dropna_perm _ _ Hp).
Qed.

Lemma unique_perm s1 s2 : s1 ≡ₚ s2 → Series.unique s1 ≡ₚ Series.unique s2.
Proof.
  intros Hp. apply NoDup_Permutation; try apply NoDup_unique.
  intros v. rewrite !elem_of_unique.
  assert (v ∈ s1 ↔ v ∈ s2) by (by rewrite Hp). tauto.
Qed.

Lemma nunique_perm s1 s2 : s1 ≡ₚ s2 → Series.nunique s1 = Series.nunique s2.
Proof. intros Hp. unfold Series.nunique. by rewrite (unique_perm _ _ Hp). Qed.

Lemma counts_of_perm s1 s2 (l : list value) :
  s1 ≡ₚ s2 →
  map (λ v, Series.count v s1) l = map (λ v, Series.count v s2) l.
Proof.
  intros Hp. apply map_ext. intros v. by apply count_perm.
Qed.

Lemma max_count_perm s1 s2 :
  s1 ≡ₚ s2 → Series.max_count s1 = Series.max_count s2.
Proof.
  intros Hp. unfold Series.max_count.
  rewrite (counts_of_perm _ _ _ Hp).
  apply max_list_with_Permutation_proper, Permutation_map.
  by apply unique_perm.
Qed.

Lemma comparable_perm s1 s2 : s1 ≡ₚ s2 → comparable s1 → comparable s2.
Proof.
  intros Hp. apply comparable_subseteq. intros v. by rewrite Hp.
Qed.

(** The modes of a column of one dtype come out sorted, so they do not
    depend on the row order. *)
Lemma mode_perm s1 s2 :
  comparable (Series.dropna s1) → s1 ≡ₚ s2 →
  Series.mode s1 = Series.mode s2.
Proof.
  intros Hd1 Hp.
  assert (Hd2 : comparable (Series.dropna s2))
    by (by apply (comparable_perm _ _ (dropna_perm _ _ Hp))).
  apply (Sorted_unique value_le).
  - rewrite (mode_comparable s1 Hd1). apply Sorted_merge_sort, _.
  - rewrite (mode_comparable s2 Hd2). apply Sorted_merge_sort, _.
  - apply NoDup_Permutation.
    + rewrite mode_perm_modes. apply NoDup_filter, NoDup_unique.
    + rewrite mode_perm_modes. apply NoDup_filter, NoDup_unique.
    + intros v. rewrite !elem_of_mode, (count_perm v _ _ Hp),
        (max_count_perm _ _ Hp).
      assert (v ∈ s1 ↔ v ∈ s2) by (by rewrite Hp). tauto.
Qed.

(** The modes of any column are the same up to their order. *)
Lemma mode_perm_perm s1 s2 : s1 ≡ₚ s2 → Series.mode s1 ≡ₚ Series.mode s2.
Proof.
  intros Hp. apply NoDup_Permutation.
  - rewrite mode_perm_modes. apply NoDup_filter, NoDup_unique.
  - rewrite mode_perm_modes. apply NoDup_filter, NoDup_unique.
  - intros v. rewrite !elem_of_mode, (count_perm v _ _ Hp),
      (max_count_perm _ _ Hp).
    assert (v ∈ s1 ↔ v ∈ s2) by (by rewrite Hp). tauto.
Qed.

Lemma distinct_le_length t : length (Series.distinct t) ≤ length t.
Proof.
  apply submseteq_length, NoDup_submseteq; [apply NoDup_distinct|].
  intros v. by rewrite elem_of_distinct.
Qed.

Lemma distinct_length_NoDup t :
  length (Series.distinct t) = length t ↔ NoDup t.
Proof.
  split.
  - intros Hlen.
    assert (Hsub : Series.distinct t ⊆+ t).
    { apply NoDup_submseteq; [apply NoDup_distinct|].
      intros v. by rewrite elem_of_distinct. }
    apply submseteq_length_Permutation in Hsub; [|lia].
    rewrite <- Hsub. apply NoDup_distinct.
  - intros Hnd. apply Permutation_length.
    apply NoDup_Permutation; [apply NoDup_distinct|done|].
    intros v. apply elem_of_distinct.
Qed.

Lemma nunique_le_dropna s : Series.nunique s ≤ length (Series.dropna s).
Proof. apply distinct_le_length. Qed.

Lemma nunique_le_length s : Series.nunique s ≤ length s.
Proof.
  pose proof (nunique_le_dropna s). pose proof (dropna_length s). lia.
Qed.

(** As many distinct values as rows: nothing missing, nothing repeated. *)
Lemma nunique_length_NoDup s :
  Series.nunique s = length s ↔ no_missing s ∧ NoDup s.
Proof.
  pose proof (nunique_le_dropna s) as H1.
  pose proof (dropna_length s) as H2. split.
  - intros Hlen.
    assert (Hfull : no_missing s) by (apply dropna_length_eq; lia).
    split; [done|]. rewrite <- (dropna_no_missing s Hfull).
    apply distinct_length_NoDup. unfold Series.nunique, Series.unique in *.
    lia.
  - intros [Hfull Hnd]. unfold Series.nunique, Series.unique.
    rewrite (dropna_no_missing s Hfull). by apply distinct_length_NoDup.
Qed.

Lemma sum_list_all_ones (l : list nat) :
  Forall (λ n, 1 ≤ n) l → sum_list l = length l → Forall (λ n, n = 1) l.
Proof.
  induction 1 as [|n l Hn Hl IH]; simpl; intros Hsum; [constructor|].
  assert (length l ≤ sum_list l).
  { clear -Hl. induction Hl; simpl; lia. }
  constructor; [lia|]. apply IH. lia.
Qed.

(** No present cell repeats exactly when the largest count is one. *)
Lemma NoDup_max_count s :
  Series.dropna s ≠ [] → NoDup (Series.dropna s) ↔ Series.max_count s = 1.
Proof.
  intros Hs.
  assert (Hpos : Forall (λ n, 1 ≤ n)
                   (map (λ v, Series.count v s) (Series.unique s))).
  { apply Forall_forall. intros n (v & -> & Hv)%list_elem_of_fmap.
    rewrite elem_of_unique in Hv. by apply count_pos. }
  rewrite <- distinct_length_NoDup. fold (Series.unique s). split.
  - intros Hlen.
    destruct (max_count_attained s Hs) as (v & Hv & <-).
    assert (Hones := sum_list_all_ones _ Hpos).
    rewrite sum_counts_unique, length_map in Hones.
    specialize (Hones (eq_sym Hlen)). rewrite Forall_forall in Hones.
    apply Hones, list_elem_of_fmap. exists v. by rewrite elem_of_unique.
  - intros Hmax. rewrite <- (sum_counts_unique s).
    rewrite <- (Nat.mul_1_r (length (Series.unique s))).
    symmetry. apply sum_list_fmap_same, Forall_forall. intros v Hv.
    rewrite elem_of_unique in Hv.
    pose proof (max_count_ge s v (proj1 Hv)). apply count_pos in Hv. lia.
Qed.

Lemma occurrences_length_constant v t :
  Series.occurrences v t = length t ↔ Forall (λ x, x = v) t.
Proof.
  split.
  - intros Hc. apply Forall_forall. intros x Hx.
    destruct (decide (x = v)) as [|Hne]; [done|].
    pose proof (length_filter_lt (λ x, x = v) t x Hx Hne) as Hlt.
    unfold Series.occurrences in Hc. lia.
  - intros Hall. unfold Series.occurrences.
    induction Hall as [|x t -> _ IH]; [done|].
    rewrite filter_cons, decide_True by done. simpl. by rewrite IH.
Qed.

(** A present value fills the column exactly when every cell holds it. *)
Lemma count_length_constant v s :
  v ≠ VNaN → Series.count v s = length s ↔ Forall (λ x, x = v) s.
Proof.
  intros Hv. split.
  - intros Hc.
    pose proof (count_le_dropna v s) as H1.
    pose proof (dropna_length s) as H2.
    assert (Hfull : no_missing s) by (apply dropna_length_eq; lia).
    apply occurrences_length_constant. unfold Series.count in Hc.
    by rewrite (dropna_no_missing s Hfull) in Hc.
  - intros Hall.
    assert (Hfull : no_missing s).
    { eapply Forall_impl; [exact Hall|]. by intros x ->. }
    unfold Series.count. rewrite (dropna_no_missing s Hfull).
    by apply occurrences_length_constant.
Qed.

(** One distinct value: every present cell holds it. *)
Lemma nunique_one_constant v s :
  v ∈ s → v ≠ VNaN →
  Series.nunique s = 1 ↔ Forall (λ x, x = v) (Series.dropna s).
Proof.
  intros Hv Hpresent. split.
  - intros Hk. apply Forall_forall. intros x Hx.
    apply elem_of_dropna in Hx.
    assert (Hv' : v ∈ Series.unique s) by (by apply elem_of_unique).
    assert (Hx' : x ∈ Series.unique s) by (by apply elem_of_unique).
    unfold Series.nunique in Hk.
    destruct (Series.unique s) as [|y [|??]]; try done.
    apply list_elem_of_singleton in Hv', Hx'. by subst.
  - intros Hall. apply Nat.le_antisymm.
    + change 1 with (length [v]).
      apply submseteq_length, NoDup_submseteq; [apply NoDup_unique|].
      intros x Hx. rewrite elem_of_unique in Hx.
      rewrite Forall_forall in Hall.
      rewrite (Hall x); [left|by apply elem_of_dropna].
    + apply nunique_pos. intros Hnil.
      assert (Hin : v ∈ Series.dropna s) by (by apply elem_of_dropna).
      rewrite Hnil in Hin. by apply elem_of_nil in Hin.
Qed.

End row_order_facts.

(** ** More on [calculate_metrics] *)

Section metrics_more_facts.
Implicit Types (data : DataFrame) (column : string) (s : list value).

Lemma iloc0_value_counts s :
  Series.dropna s ≠ [] →
  Series.iloc0 (Series.value_counts s) = inr (Series.max_count s).
Proof.
  intros Hs. destruct (Series.value_counts s) as [|r rest] eqn:E.
  - apply (f_equal length) in E. rewrite length_value_counts in E.
    pose proof (nunique_pos s Hs). simpl in E. lia.
  - simpl. f_equal. by eapply value_counts_head.
Qed.

Lemma Qnat_le (a b : nat) : a ≤ b → (Qnat a <= Qnat b)%Q.
Proof. intros H. unfold Qnat. rewrite <- Zle_Qle. lia. Qed.

Lemma Qnat_inj (a b : nat) : (Qnat a == Qnat b)%Q → a = b.
Proof.
  unfold Qnat. intros H. rewrite inject_Z_injective in H. lia.
Qed.

Lemma Qnat_ratio_range (k n : nat) :
  0 < k → k ≤ n → (0 < Qnat k / Qnat n)%Q ∧ (Qnat k / Qnat n <= 1)%Q.
Proof.
  intros Hk Hn.
  assert (Hn' : (0 < Qnat n)%Q) by (apply Qnat_pos; lia).
  split.
  - apply Qlt_shift_div_l; [done|]. rewrite Qmult_0_l. by apply Qnat_pos.
  - apply Qle_shift_div_r; [done|]. rewrite Qmult_1_l. by apply Qnat_le.
Qed.

Lemma Qnat_ratio_one (k n : nat) :
  0 < n → (Qnat k / Qnat n == 1)%Q ↔ k = n.
Proof.
  intros Hn. assert (Hn' : (0 < Qnat n)%Q) by (by apply Qnat_pos).
  split.
  - intros H. apply Qnat_inj.
    assert (Qnat k == (Qnat k / Qnat n) * Qnat n)%Q as -> by (field; lra).
    rewrite H. ring.
  - intros ->. field. lra.
Qed.

End metrics_more_facts.

(** On a column that mixes dtypes the order of the rows shows: the modes
    cannot be sorted, and [most_common] is the one met first. *)
Lemma calculate_metrics_mixed_row_order :
  calculate_metrics (mkFrame 2 [("guess", [VInt 1; VStr "a"])]) "guess"
  ≠ calculate_metrics (mkFrame 2 [("guess", [VStr "a"; VInt 1])]) "guess".
Proof. discriminate. Qed.

(** X1. The metrics of a column do not depend on the order of its rows.
    Two columns that are permutations of each other raise the same
    exception or both get a result, with the same [num_unique],
    [num_total], [proportion_unique] and [count_most_common], and with
    [most_common] cells of the same frequency.  When the present cells
    have one dtype the two outcomes are equal, [most_common] included. *)
Theorem calculate_metrics_row_order data1 data2 column1 column2 s1 s2 :
  getitem data1 column1 = inr s1 →
  getitem data2 column2 = inr s2 →
  s1 ≡ₚ s2 →
  ((∃ e, calculate_metrics data1 column1 = inl e
       ∧ calculate_metrics data2 column2 = inl e)
   ∨ (∃ m1 m2, calculate_metrics data1 column1 = inr m1
        ∧ calculate_metrics data2 column2 = inr m2
        ∧ num_unique m1 = num_unique m2
        ∧ num_total m1 = num_total m2
        ∧ (proportion_unique m1 == proportion_unique m2)%Q
        ∧ count_most_common m1 = count_most_common m2
        ∧ Series.count (most_common m1) s1
          = Series.count (most_common m2) s2))
  ∧ (comparable (Series.dropna s1) →
     calculate_metrics data1 column1 = calculate_metrics data2 column2).
Proof.
  intros H1 H2 Hp. split.
  - destruct (decide (Series.dropna s1 = [])) as [Hnil1|Hs1].
    + left.
      assert (Hnil2 : Series.dropna s2 = []).
      { apply Permutation_nil. rewrite <- Hnil1. symmetry.
        by apply dropna_perm. }
      unfold calculate_metrics. rewrite H1, H2. simpl.
      rewrite (mode_all_missing s1 Hnil1), (mode_all_missing s2 Hnil2),
        (nunique_perm _ _ Hp), (Permutation_length Hp).
      destruct (truediv _ _) as [e|q]; simpl; by eexists.
    + right.
      assert (Hs2 : Series.dropna s2 ≠ []).
      { intros Hnil2. apply Hs1, Permutation_nil. rewrite <- Hnil2.
        by apply dropna_perm. }
      destruct (calculate_metrics_total _ _ _ H1 Hs1) as [m1 Hm1].
      destruct (calculate_metrics_total _ _ _ H2 Hs2) as [m2 Hm2].
      exists m1, m2. do 2 (split; [done|]).
      apply calculate_metrics_inv in Hm1
        as (s1' & H1' & _ & Hu1 & Ht1 & Hp1 & _ & Hc1 & _ & Hcm1).
      apply calculate_metrics_inv in Hm2
        as (s2' & H2' & _ & Hu2 & Ht2 & Hp2 & _ & Hc2 & _ & Hcm2).
      rewrite H1 in H1'. injection H1' as <-.
      rewrite H2 in H2'. injection H2' as <-.
      rewrite Hu1, Hu2, Ht1, Ht2, Hp1, Hp2, Hcm1, Hcm2, Hc1, Hc2,
        (nunique_perm _ _ Hp), (Permutation_length Hp),
        (max_count_perm _ _ Hp).
      by repeat split.
  - intros Hd. unfold calculate_metrics. rewrite H1, H2. simpl.
    rewrite (nunique_perm _ _ Hp), (Permutation_length Hp),
      (mode_perm _ _ Hd Hp).
    destruct (truediv _ _) as [e|q] eqn:Hdiv; [done|]. simpl.
    destruct (Series.getitem0 _) as [e|mc] eqn:Hmode; [done|]. simpl.
    assert (Hs2 : Series.dropna s2 ≠ []).
    { intros Hnil. by rewrite (mode_all_missing s2 Hnil) in Hmode. }
    assert (Hs1 : Series.dropna s1 ≠ []).
    { intros Hnil. apply mode_all_missing in Hnil.
      rewrite (mode_perm _ _ Hd Hp) in Hnil. by rewrite Hnil in Hmode. }
    by rewrite !iloc0_value_counts, (max_count_perm _ _ Hp).
Qed.

Lemma calculate_metrics_row_order_witness :
  calculate_metrics (mkFrame 6 [("guess", map VInt [2; 1; 2; 3; 3; 3]%Z)])
    "guess"
  = calculate_metrics test_frame "response".
Proof.
  apply (calculate_metrics_row_order
           (mkFrame 6 [("guess", map VInt [2; 1; 2; 3; 3; 3]%Z)]) test_frame
           "guess" "response"
           (map VInt [2; 1; 2; 3; 3; 3]%Z) (map VInt [1; 2; 2; 3; 3; 3]%Z));
    [reflexivity|reflexivity|apply perm_swap|left; by repeat constructor].
Defined.

(** X2. A result of [calculate_metrics] counts at least one and at most
    [num_total] distinct values, and its [proportion_unique] lies in
    (0, 1]. *)
Theorem calculate_metrics_bounds data column m :
  calculate_metrics data column = inr m →
  1 ≤ num_unique m ≤ num_total m
  ∧ (0 < proportion_unique m)%Q ∧ (proportion_unique m <= 1)%Q.
Proof.
  intros Hm.
  apply calculate_metrics_inv in Hm
    as (s & _ & Hs & Hu & Ht & Hp & _).
  pose proof (nunique_pos s Hs) as Hk.
  pose proof (nunique_le_length s) as Hle.
  rewrite Hu, Ht, Hp. split; [lia|].
  by apply Qnat_ratio_range.
Qed.

Lemma calculate_metrics_bounds_witness :
  ∃ m, calculate_metrics test_frame "response" = inr m
    ∧ 1 ≤ num_unique m ≤ num_total m
    ∧ (0 < proportion_unique m)%Q ∧ (proportion_unique m <= 1)%Q.
Proof.
  eexists. split; [reflexivity|].
  apply (calculate_metrics_bounds test_frame "response"). reflexivity.
Defined.

(** X3. On a measured column: [proportion_unique] is 1 exactly when
    [num_unique] equals [num_total], which holds exactly when no cell is
    missing and no value repeats; [count_most_common] is 1 exactly when no
    value repeats among the cells that are present. *)
Theorem calculate_metrics_all_distinct data column s m :
  getitem data column = inr s →
  calculate_metrics data column = inr m →
  ((proportion_unique m == 1)%Q ↔ num_unique m = num_total m)
  ∧ (num_unique m = num_total m ↔ no_missing s ∧ NoDup s)
  ∧ (count_most_common m = 1 ↔ NoDup (Series.dropna s)).
Proof.
  intros Hget Hm.
  apply calculate_metrics_inv in Hm
    as (s' & Hget' & Hs & Hu & Ht & Hp & _ & _ & _ & Hcm).
  rewrite Hget in Hget'. injection Hget' as <-.
  rewrite Hu, Ht, Hcm, Hp. split; [|split].
  - apply Qnat_ratio_one.
    pose proof (dropna_length s). destruct (Series.dropna s); [done|].
    simpl in *. lia.
  - apply nunique_length_NoDup.
  - symmetry. by apply NoDup_max_count.
Qed.

Lemma calculate_metrics_all_distinct_witness :
  ∃ m, calculate_metrics sparse_frame "response" = inr m
    ∧ (num_unique m = num_total m
       ↔ no_missing [VInt 1; VNaN; VNaN; VNaN]
         ∧ NoDup [VInt 1; VNaN; VNaN; VNaN])
    ∧ (count_most_common m = 1
       ↔ NoDup (Series.dropna [VInt 1; VNaN; VNaN; VNaN])).
Proof.
  eexists. split; [reflexivity|].
  destruct (calculate_metrics_all_distinct sparse_frame "response"
              [VInt 1; VNaN; VNaN; VNaN] _ eq_refl eq_refl)
    as (_ & H1 & H2).
  split; [exact H1|exact H2].
Defined.

(** X4. On a measured column: [num_unique] is 1 exactly when every cell
    that is present equals [most_common]; [count_most_common] equals
    [num_total] exactly when every cell, none missing, equals
    [most_common]. *)
Theorem calculate_metrics_constant data column s m :
  getitem data column = inr s →
  calculate_metrics data column = inr m →
  (num_unique m = 1 ↔ Forall (λ x, x = most_common m) (Series.dropna s))
  ∧ (count_most_common m = num_total m
     ↔ Forall (λ x, x = most_common m) s).
Proof.
  intros Hget Hm.
  apply calculate_metrics_inv in Hm
    as (s' & Hget' & Hs & Hu & Ht & _ & [Hin Hpresent] & Hc & _ & Hcm).
  rewrite Hget in Hget'. injection Hget' as <-.
  rewrite Hu, Ht, Hcm, <- Hc. split.
  - by apply nunique_one_constant.
  - by apply count_length_constant.
Qed.

Lemma calculate_metrics_constant_witness :
  ∃ m, calculate_metrics sparse_frame "response" = inr m
    ∧ (num_unique m = 1
       ↔ Forall (λ x, x = most_common m)
           (Series.dropna [VInt 1; VNaN; VNaN; VNaN]))
    ∧ (count_most_common m = num_total m
       ↔ Forall (λ x, x = most_common m) [VInt 1; VNaN; VNaN; VNaN]).
Proof.
  eexists. split; [reflexivity|].
  apply (calculate_metrics_constant sparse_frame "response");
    reflexivity.
Defined.

(** ** More on [perform_chi_square_test] *)

Section chi_square_more_facts.
Context `{!Chi2}.
Implicit Types (data : DataFrame) (column : string) (s : list value).
Open Scope Q_scope.

Lemma Qsum_zero_inv {A : Type} (f : A → Q) (l : list A) :
  (∀ x, x ∈ l → 0 <= f x) → Qsum (map f l) == 0 →
  ∀ x, x ∈ l → f x == 0.
Proof.
  induction l as [|a l IH]; intros Hpos Hsum x Hx.
  { by apply elem_of_nil in Hx. }
  simpl in Hsum.
  assert (Ha : 0 <= f a) by (apply Hpos; left).
  assert (Hl : 0 <= Qsum (map f l)).
  { apply Qsum_nonneg. intros; apply Hpos; by right. }
  apply elem_of_cons in Hx as [->|Hx]; [lra|].
  apply IH; [intros; apply Hpos; by right|lra|done].
Qed.

Lemma pearson_term_zero_inv (o e : Q) :
  0 < e → Qsq (o - e) / e == 0 → o == e.
Proof.
  intros He H0.
  assert (Hsq : Qsq (o - e) == 0).
  { assert (Qsq (o - e) == (Qsq (o - e) / e) * e) as -> by (field; lra).
    rewrite H0. ring. }
  unfold Qsq in Hsq. apply Qmult_integral in Hsq. lra.
Qed.

(** Equal frequencies over every cell leave no room for a missing one,
    whose frequency is zero. *)
Lemma equal_counts_no_missing s :
  Series.dropna s ≠ [] →
  (∀ u v, u ∈ s → v ∈ s → Series.count u s = Series.count v s) →
  no_missing s.
Proof.
  intros Hs Heq. apply Forall_forall. intros x Hx ->.
  destruct (Series.dropna s) as [|v t] eqn:E; [done|].
  assert (Hv : v ∈ s ∧ v ≠ VNaN) by (apply elem_of_dropna; rewrite E; left).
  pose proof (Heq VNaN v Hx (proj1 Hv)) as Hc.
  rewrite count_missing in Hc. apply count_pos in Hv. lia.
Qed.

(** A statistic of zero means equal frequencies and no missing cell. *)
Lemma pearson_statistic_zero_inv s :
  Series.dropna s ≠ [] → pearson_statistic (length s) s == 0 →
  no_missing s
  ∧ ∀ u v, u ∈ s → v ∈ s → Series.count u s = Series.count v s.
Proof.
  intros Hs H0.
  pose proof (nunique_pos s Hs) as Hk.
  assert (Hn : (0 < length s)%nat).
  { pose proof (dropna_length s). destruct (Series.dropna s); [done|].
    simpl in *. lia. }
  assert (He : 0 < uniform_expected (length s) (Series.nunique s))
    by (by apply uniform_expected_pos).
  assert (Hall : ∀ v, v ∈ Series.unique s →
    Qnat (Series.count v s)
    == uniform_expected (length s) (Series.nunique s)).
  { intros v Hv. apply pearson_term_zero_inv; [done|].
    apply (Qsum_zero_inv
             (λ v, Qsq (Qnat (Series.count v s)
                        - uniform_expected (length s) (Series.nunique s))
                   / uniform_expected (length s) (Series.nunique s))
             (Series.unique s)); [|exact H0|done].
    intros x _. by apply pearson_term_nonneg. }
  destruct (max_count_attained s Hs) as (v0 & Hv0 & _).
  assert (Hsame : ∀ v, v ∈ Series.unique s →
                       Series.count v s = Series.count v0 s).
  { intros v Hv. apply Qnat_inj. rewrite (Hall v Hv).
    symmetry. apply Hall. by apply elem_of_unique. }
  assert (Hsum : (Series.nunique s * Series.count v0 s
                  = length (Series.dropna s))%nat).
  { rewrite <- (sum_counts_unique s). unfold Series.nunique.
    symmetry. apply (sum_list_fmap_same (Series.count v0 s)).
    by apply Forall_forall. }
  assert (Hk' : ¬ Qnat (Series.nunique s) == 0).
  { pose proof (Qnat_pos _ Hk). lra. }
  assert (Hlen : length (Series.dropna s) = length s).
  { apply Qnat_inj. rewrite <- Hsum, Qnat_mult.
    rewrite (Hall v0) by (by apply elem_of_unique).
    unfold uniform_expected. by field. }
  assert (Hfull : no_missing s) by (by apply dropna_length_eq).
  split; [done|]. intros u v Hu Hv.
  unfold no_missing in Hfull. rewrite Forall_forall in Hfull.
  rewrite (Hsame u), (Hsame v); [done| |];
    apply elem_of_unique; split; auto.
Qed.

Lemma pearson_statistic_perm n s1 s2 :
  s1 ≡ₚ s2 → pearson_statistic n s1 == pearson_statistic n s2.
Proof.
  intros Hp. unfold pearson_statistic.
  rewrite (nunique_perm _ _ Hp).
  etransitivity.
  { apply Qsum_perm, Permutation_map, (unique_perm _ _ Hp). }
  apply Qsum_ext. intros v _. by rewrite (count_perm v _ _ Hp).
Qed.

(** No present cell, no bucket: the expected frequency divides by zero. *)
Lemma perform_chi_square_test_all_missing data column s :
  getitem data column = inr s → Series.dropna s = [] →
  perform_chi_square_test data column = inl ZeroDivisionError.
Proof.
  intros Hget Hdrop. unfold perform_chi_square_test. rewrite Hget. simpl.
  rewrite length_map, length_value_counts.
  unfold Series.nunique, Series.unique. by rewrite Hdrop.
Qed.

End chi_square_more_facts.

(** X5. On a rectangular frame [perform_chi_square_test] raises in three
    cases only: [KeyError] when the column is absent;
    [ZeroDivisionError] when the column has no present cell (in particular
    no row); [ValueError], from the sum check of [chisquare], and then the
    column has present cells beside missing ones.  On a non-empty column
    without missing cells it raises nothing: there the expected
    frequencies add up to the observed total. *)
Theorem perform_chi_square_test_raises `{!Chi2} data column :
  rectangular data →
  (col_lookup column (columns data) = None →
     perform_chi_square_test data column = inl KeyError)
  ∧ (∀ e, perform_chi_square_test data column = inl e →
       (e = KeyError ∧ col_lookup column (columns data) = None)
       ∨ (e = ZeroDivisionError
          ∧ ∃ s, col_lookup column (columns data) = Some s
               ∧ Series.dropna s = [])
       ∨ (e = ValueError
          ∧ ∃ s, col_lookup column (columns data) = Some s
               ∧ Series.dropna s ≠ [] ∧ ¬ no_missing s))
  ∧ (∀ s, col_lookup column (columns data) = Some s →
       no_missing s → s ≠ [] →
       ∃ r, perform_chi_square_test data column = inr r).
Proof.
  intros Hrect. split; [|split].
  - intros E. unfold perform_chi_square_test, getitem. by rewrite E.
  - intros e He.
    destruct (col_lookup column (columns data)) as [s|] eqn:E.
    + right.
      assert (Hget : getitem data column = inr s)
        by (unfold getitem; by rewrite E).
      pose proof (getitem_rectangular _ _ _ Hrect Hget) as Hlen.
      destruct (decide (Series.dropna s = [])) as [Hnil|Hs].
      * left.
        rewrite (perform_chi_square_test_all_missing _ _ s Hget Hnil) in He.
        injection He as <-. split; [done|]. by exists s.
      * right.
        destruct (perform_chi_square_test_check data column s Hget Hs)
          as (stat & _ & Hrun).
        rewrite Hrun in He.
        destruct (diff_gt_tol _ _) eqn:Hcheck; [|done].
        injection He as <-. split; [done|]. exists s.
        do 2 (split; [done|]). intros Hfull.
        rewrite (dropna_no_missing s Hfull), Hlen, diff_gt_tol_eq in Hcheck
          by reflexivity.
        done.
    + left. unfold perform_chi_square_test, getitem in He.
      rewrite E in He. simpl in He. by injection He as <-.
  - intros s E Hfull Hs.
    assert (Hget : getitem data column = inr s)
      by (unfold getitem; by rewrite E).
    destruct (perform_chi_square_test_run data column s Hrect Hget Hfull Hs)
      as (stat & Hrun & _).
    by eexists.
Qed.

Lemma perform_chi_square_test_raises_witness :
  @perform_chi_square_test RationalSf.chi2 test_frame "guess"
  = inl KeyError
  ∧ ∃ r, @perform_chi_square_test RationalSf.chi2 test_frame "response"
         = inr r.
Proof.
  destruct (@perform_chi_square_test_raises RationalSf.chi2 test_frame
              "guess") as (Habsent & _); [by repeat constructor|].
  destruct (@perform_chi_square_test_raises RationalSf.chi2 test_frame
              "response") as (_ & _ & Hfull); [by repeat constructor|].
  split; [apply Habsent; reflexivity|].
  apply (Hfull (map VInt [1; 2; 2; 3; 3; 3]%Z));
    [reflexivity|by repeat constructor|discriminate].
Defined.

(** X6. The statistic returned for a column is zero exactly when all the
    cells of the column have the same frequency (a missing cell having
    frequency zero): no cell is missing and all the distinct values occur
    equally often. *)
Theorem perform_chi_square_test_zero_iff `{!Chi2} data column s stat p :
  rectangular data → getitem data column = inr s →
  perform_chi_square_test data column = inr (stat, p) →
  (stat == 0)%Q
  ↔ ∀ u v, u ∈ s → v ∈ s → Series.count u s = Series.count v s.
Proof.
  intros Hrect Hget Htest.
  pose proof (getitem_rectangular _ _ _ Hrect Hget) as Hlen.
  destruct (perform_chi_square_test_inv _ _ _ _ _ Hget Htest)
    as (Hs & Hstat & _).
  rewrite Hstat, <- Hlen. split.
  - intros H0. by apply pearson_statistic_zero_inv.
  - intros Heq.
    pose proof (equal_counts_no_missing s Hs Heq) as Hfull.
    apply pearson_statistic_uniform; [done| |done].
    intros ->. done.
Qed.

Lemma perform_chi_square_test_zero_iff_witness :
  ∃ stat p,
    @perform_chi_square_test RationalSf.chi2
      (mkFrame 4 [("guess", map VInt [5; 6; 6; 5]%Z)]) "guess"
    = inr (stat, p)
    ∧ ((stat == 0)%Q
       ↔ ∀ u v, u ∈ map VInt [5; 6; 6; 5]%Z → v ∈ map VInt [5; 6; 6; 5]%Z →
           Series.count u (map VInt [5; 6; 6; 5]%Z)
           = Series.count v (map VInt [5; 6; 6; 5]%Z)).
Proof.
  eexists _, _. split; [reflexivity|].
  eapply (@perform_chi_square_test_zero_iff RationalSf.chi2
           (mkFrame 4 [("guess", map VInt [5; 6; 6; 5]%Z)]) "guess");
    [by repeat constructor|reflexivity|reflexivity].
Defined.

(** X7. The outcome of the test does not depend on the order of the rows:
    for two rectangular frames whose columns are permutations of each
    other the test either raises the same exception on both or returns
    equal statistics, with p-values taken at the same degrees of freedom. *)
Theorem perform_chi_square_test_row_order `{!Chi2}
    data1 data2 column1 column2 s1 s2 :
  rectangular data1 → rectangular data2 →
  getitem data1 column1 = inr s1 →
  getitem data2 column2 = inr s2 →
  s1 ≡ₚ s2 →
  (∃ e, perform_chi_square_test data1 column1 = inl e
      ∧ perform_chi_square_test data2 column2 = inl e)
  ∨ (∃ stat1 stat2 df,
       perform_chi_square_test data1 column1
       = inr (stat1, chi2_sf stat1 df)
       ∧ perform_chi_square_test data2 column2
         = inr (stat2, chi2_sf stat2 df)
       ∧ (stat1 == stat2)%Q).
Proof.
  intros Hr1 Hr2 H1 H2 Hp.
  pose proof (getitem_rectangular _ _ _ Hr1 H1) as Hl1.
  pose proof (getitem_rectangular _ _ _ Hr2 H2) as Hl2.
  pose proof (dropna_perm _ _ Hp) as Hdrop.
  destruct (decide (Series.dropna s1 = [])) as [Hnil|Hs1].
  - left. exists ZeroDivisionError.
    assert (Hnil2 : Series.dropna s2 = []).
    { rewrite Hnil in Hdrop. by apply Permutation_nil in Hdrop. }
    split; by eapply perform_chi_square_test_all_missing.
  - assert (Hs2 : Series.dropna s2 ≠ []).
    { intros Hnil2. rewrite Hnil2 in Hdrop.
      symmetry in Hdrop. by apply Permutation_nil in Hdrop. }
    destruct (perform_chi_square_test_check data1 column1 s1 H1 Hs1)
      as (stat1 & Hstat1 & Hrun1).
    destruct (perform_chi_square_test_check data2 column2 s2 H2 Hs2)
      as (stat2 & Hstat2 & Hrun2).
    rewrite <- Hl1, (Permutation_length Hdrop), (Permutation_length Hp),
      (nunique_perm _ _ Hp) in Hrun1.
    rewrite <- Hl2 in Hrun2.
    destruct (diff_gt_tol _ _).
    + left. by exists ValueError.
    + right. exists stat1, stat2, (Z.of_nat (Series.nunique s2) - 1)%Z.
      do 2 (split; [done|]).
      rewrite Hstat1, Hstat2, <- Hl1, <- Hl2, (Permutation_length Hp).
      by apply pearson_statistic_perm.
Qed.

Lemma perform_chi_square_test_row_order_witness :
  (∃ e, @perform_chi_square_test RationalSf.chi2
          (mkFrame 3 [("guess", [VNaN; VInt 2; VInt 1])]) "guess" = inl e
      ∧ @perform_chi_square_test RationalSf.chi2 gap_frame "response"
        = inl e)
  ∨ (∃ stat1 stat2 df,
       @perform_chi_square_test RationalSf.chi2
         (mkFrame 3 [("guess", [VNaN; VInt 2; VInt 1])]) "guess"
       = inr (stat1, @chi2_sf RationalSf.chi2 stat1 df)
       ∧ @perform_chi_square_test RationalSf.chi2 gap_frame "response"
         = inr (stat2, @chi2_sf RationalSf.chi2 stat2 df)
       ∧ (stat1 == stat2)%Q).
Proof.
  apply (@perform_chi_square_test_row_order RationalSf.chi2
           (mkFrame 3 [("guess", [VNaN; VInt 2; VInt 1])]) gap_frame
           "guess" "response" [VNaN; VInt 2; VInt 1]
           [VInt 1; VInt 2; VNaN]).
  - by repeat constructor.
  - by repeat constructor.
  - reflexivity.
  - reflexivity.
  - etransitivity; [apply Permutation_cons_append|]. simpl. apply perm_swap.
Defined.

(** ** More on [generate_random_dataset] *)

Section generate_more_facts.
Context {Rng : Type} `{!RandomState Rng}.
Implicit Types (w : World Rng) (filename : string) (num_rows : Z).

Lemma DataFrame_of_dict_inv cols frame :
  DataFrame_of_dict cols = inr frame →
  columns frame = cols ∧ rectangular frame.
Proof.
  unfold DataFrame_of_dict, rectangular. destruct cols as [|[name s] cols].
  { intros [= <-]. by split; [|constructor]. }
  case_decide as Hall; [|done]. by intros [= <-].
Qed.

(** The first draws of a longer run are the draws of a shorter run. *)
Lemma draws_prefix {A : Type} (gen : Rng → A * Rng) n m g :
  n ≤ m → (draws gen n g).1 = firstn n (draws gen m g).1.
Proof.
  revert m g. induction n as [|n IH]; intros m g Hnm; [done|].
  destruct m as [|m]; [lia|]. simpl.
  destruct (gen g) as [x g1]. specialize (IH m g1 ltac:(lia)).
  destruct (draws gen n g1) as [xs g2].
  destruct (draws gen m g1) as [ys g3]. simpl in *. by rewrite IH.
Qed.

Lemma take_firstn a idx vs n :
  take a idx = inr vs → take a (firstn n idx) = inr (firstn n vs).
Proof.
  revert vs n. induction idx as [|i idx IH]; intros vs n; simpl.
  { intros [= <-]. by destruct n. }
  destruct (a !! i) as [v|] eqn:Hv; [|done].
  destruct (take a idx) as [e|vs'] eqn:E; simpl; [done|].
  intros [= <-]. destruct n as [|n]; simpl; [done|].
  by rewrite Hv, (IH vs' n eq_refl).
Qed.

(** A weighted draw, spelled out. *)
Lemma choice_weighted_eq a p size w total :
  a ≠ [] → length p = length a →
  existsb (λ x, Qltb x 0) p = false →
  Qltb atol (Qabs (Qsum p - 1)) = false →
  last (cumsum p) = Some total →
  (0 ≤ size)%Z →
  (choice a size (Some p) w).2
  = take a (map (searchsorted_right (map (λ c, c / total)%Q (cumsum p)))
              (draws random_sample (Z.to_nat size) (np_random w)).1).
Proof.
  intros Ha Hlen Hneg Hsum Hlast Hsize. unfold choice, raise, bind, lift.
  rewrite decide_False by (intros [Hl _]; by destruct a).
  rewrite decide_False by naive_solver.
  by rewrite Hneg, Hsum, Hlast, sample_eq, decide_False by lia.
Qed.

(** What the run leaves in the world, whatever its outcome. *)
Lemma generate_random_dataset_world filename num_rows w :
  ∃ g,
    match generate_random_dataset filename num_rows w with
    | (w', inl _) =>
        w' = mkWorld (heap w) g (files w) (stdout w)
    | (w', inr l) =>
        ∃ frame,
          l = fresh (dom (heap w))
          ∧ w' = mkWorld (<[l := frame]> (heap w)) g
                   (<[filename := frame]> (files w))
                   (stdout w ++ ["Dataset saved to: " +:+ filename])
          ∧ rectangular frame
    end.
Proof.
  rewrite generate_random_dataset_eq. simpl. set (w0 := mkWorld _ _ _ _).
  destruct (choice_frame response_values num_rows (Some response_weights)
              w0 w0 eq_refl) as (_ & _ & Hh1 & Hf1 & Ho1).
  destruct (choice response_values _ _ w0) as [w1 r1]. simpl in *.
  assert (Hw1 : w1 = mkWorld (heap w) (np_random w1) (files w) (stdout w)).
  { destruct w1; simpl in *; by subst. }
  destruct r1 as [e|responses]; [by eexists|].
  destruct (choice_frame category_values num_rows None w1 w1 eq_refl)
    as (_ & _ & Hh2 & Hf2 & Ho2).
  destruct (choice category_values _ _ w1) as [w2 r2]. simpl in *.
  assert (Hw2 : w2 = mkWorld (heap w) (np_random w2) (files w) (stdout w)).
  { destruct w2; simpl in *; subst. congruence. }
  destruct r2 as [e|categories]; [by eexists|].
  destruct (date_range _ _) as [e|timestamps]; [by eexists|].
  destruct (DataFrame_of_dict _) as [e|frame] eqn:Hframe; [by eexists|].
  apply DataFrame_of_dict_inv in Hframe as [_ Hrect].
  exists (np_random w2), frame. rewrite Hw2. simpl. done.
Qed.

End generate_more_facts.

Section generate_prefix_facts.
Context {Rng : Type} `{!RandomState Rng}.
Implicit Types (w : World Rng) (filename : string) (num_rows : Z).

Lemma choice_negative_size_eq a size po w :
  (size < 0)%Z → choice a size po w = (w, inl ValueError).
Proof.
  intros Hsize. unfold choice, raise, bind, lift.
  case_decide as Hpop; [done|]. destruct po as [p|].
  - case_decide; [done|].
    destruct (existsb _ p); [done|].
    destruct (Qltb atol _); [done|].
    destruct (last (cumsum p)) eqn:Hlast.
    + rewrite sample_eq, decide_True by done. done.
    + assert (p = []) as ->.
      { destruct p as [|x p]; [done|]. unfold cumsum in Hlast.
        simpl in Hlast. apply last_None in Hlast.
        by destruct (cumsum_from _ p). }
      destruct a; [|done]. exfalso. apply Hpop. split; [done|lia].
  - rewrite sample_eq, decide_True by done. done.
Qed.

(** The columns of the frame a run returned, spelled out. *)
Lemma generate_random_dataset_columns filename num_rows w frame :
  returned_frame (generate_random_dataset filename num_rows w) = inr frame →
  (0 ≤ num_rows)%Z
  ∧ ∃ responses categories,
      columns frame
      = [("response", responses); ("category", categories);
         ("timestamp",
          map (λ i, VTime (Timestamp 2024 1 1 + Z.of_nat i))
            (seq 0 (Z.to_nat num_rows)))]
      ∧ index_len frame = length responses
      ∧ rectangular frame
      ∧ take response_values
          (map (searchsorted_right
                  (map (λ c, c / Qsum response_weights)%Q
                     (cumsum response_weights)))
             (draws random_sample (Z.to_nat num_rows) (rs_seed 42)).1)
        = inr responses.
Proof.
  destruct (decide (num_rows < 0)%Z) as [Hneg|Hpos].
  { rewrite generate_random_dataset_eq. simpl.
    by rewrite choice_negative_size_eq. }
  rewrite generate_random_dataset_eq. simpl. set (w0 := mkWorld _ _ _ _).
  pose proof (choice_weighted_eq response_values response_weights num_rows
                w0 (Qsum response_weights)) as Hr.
  destruct (choice response_values _ _ w0) as [w1 r1]. simpl in Hr.
  rewrite Hr by (done || lia). clear Hr.
  destruct (take response_values _) as [e|responses] eqn:Er; [done|].
  destruct (choice category_values _ _ w1) as [w2 [e|categories]]; [done|].
  unfold date_range. rewrite decide_False by done.
  destruct (DataFrame_of_dict _) as [e|frame'] eqn:Hframe; [done|].
  simpl. rewrite lookup_insert_eq. intros [= <-]. split; [lia|].
  pose proof (DataFrame_of_dict_inv _ _ Hframe) as [Hcols Hrect].
  exists responses, categories. repeat split; try done.
  unfold DataFrame_of_dict in Hframe. case_decide; [|done].
  by injection Hframe as <-.
Qed.

End generate_prefix_facts.

(** X8. A successful [generate_random_dataset] returns a reference that
    was free before the call; the heap gains the new (rectangular) frame
    and keeps every frame it had; the file [filename] holds that frame and
    no other file changes; exactly one line, "Dataset saved to: " followed
    by the file name, is printed. *)
Theorem generate_random_dataset_effects {Rng : Type} `{!RandomState Rng}
    (filename : string) (num_rows : Z) (w w' : World Rng) (l : loc) :
  generate_random_dataset filename num_rows w = (w', inr l) →
  heap w !! l = None
  ∧ ∃ frame,
      rectangular frame
      ∧ heap w' = <[l := frame]> (heap w)
      ∧ files w' = <[filename := frame]> (files w)
      ∧ stdout w' = stdout w ++ ["Dataset saved to: " +:+ filename].
Proof.
  intros Hrun.
  destruct (generate_random_dataset_world filename num_rows w) as [g Hw].
  rewrite Hrun in Hw. destruct Hw as (frame & -> & -> & Hrect).
  split; [apply not_elem_of_dom, is_fresh|]. by exists frame.
Qed.

Lemma generate_random_dataset_effects_witness :
  ∃ frame,
    files (@generate_random_dataset Z Lcg.rng "guesses.csv" 3
             (mkWorld ∅ 0%Z ∅ [])).1
    = <[ "guesses.csv" := frame ]> ∅
    ∧ stdout (@generate_random_dataset Z Lcg.rng "guesses.csv" 3
                (mkWorld ∅ 0%Z ∅ [])).1
      = ["Dataset saved to: guesses.csv"].
Proof.
  destruct (@generate_random_dataset_run Z Lcg.rng "guesses.csv" 3
              (mkWorld ∅ 0%Z ∅ [])) as (w' & l & ? & ? & ? & Hrun & _);
    [lia|].
  destruct (@generate_random_dataset_effects Z Lcg.rng "guesses.csv" 3
              (mkWorld ∅ 0%Z ∅ []) w' l Hrun)
    as (_ & frame & _ & _ & Hfiles & Hout).
  exists frame. rewrite Hrun. simpl. split; [exact Hfiles|exact Hout].
Defined.

(** X9. A failing [generate_random_dataset] writes no file, allocates no
    frame and prints nothing.  It has nevertheless reseeded the global
    generator: after a call with [num_rows < 0] the world is the one before
    the call with the generator in the state [seed(42)]. *)
Theorem generate_random_dataset_failure_effects {Rng : Type}
    `{!RandomState Rng} (filename : string) (num_rows : Z) (w : World Rng) :
  (∀ w' e, generate_random_dataset filename num_rows w = (w', inl e) →
     heap w' = heap w ∧ files w' = files w ∧ stdout w' = stdout w)
  ∧ ((num_rows < 0)%Z →
     generate_random_dataset filename num_rows w
     = (mkWorld (heap w) (rs_seed 42) (files w) (stdout w), inl ValueError)).
Proof.
  split.
  - intros w' e Hrun.
    destruct (generate_random_dataset_world filename num_rows w) as [g Hw].
    rewrite Hrun in Hw. by subst w'.
  - intros Hneg. rewrite generate_random_dataset_eq. simpl.
    by rewrite choice_negative_size_eq.
Qed.

Lemma generate_random_dataset_failure_effects_witness :
  @generate_random_dataset Z Lcg.rng "guesses.csv" (-5)
    (mkWorld ∅ 7%Z ∅ ["hello"])
  = (mkWorld ∅ (@rs_seed Z Lcg.rng 42) ∅ ["hello"], inl ValueError).
Proof.
  apply (@generate_random_dataset_failure_effects Z Lcg.rng "guesses.csv"
           (-5) (mkWorld ∅ 7%Z ∅ ["hello"])). lia.
Defined.

(** X10. Whatever the global generator held before, after
    [generate_random_dataset] its state is a function of [num_rows] alone:
    the call reseeds it, so code that draws random numbers afterwards
    restarts from the same point on every run. *)
Theorem generate_random_dataset_reseeds {Rng : Type} `{!RandomState Rng}
    (filename1 filename2 : string) (num_rows : Z) (w1 w2 : World Rng) :
  np_random (generate_random_dataset filename1 num_rows w1).1
  = np_random (generate_random_dataset filename2 num_rows w2).1.
Proof.
  rewrite !generate_random_dataset_eq. simpl.
  set (wa := mkWorld (heap w1) _ _ _). set (wb := mkWorld (heap w2) _ _ _).
  destruct (choice_frame response_values num_rows (Some response_weights)
              wa wb eq_refl) as (Hr & Hg & _).
  destruct (choice response_values num_rows _ wa) as [wa1 ra].
  destruct (choice response_values num_rows _ wb) as [wb1 rb].
  simpl in Hr, Hg. subst rb. destruct ra as [e|responses]; [done|].
  destruct (choice_frame category_values num_rows None wa1 wb1 Hg)
    as (Hc & Hg' & _).
  destruct (choice category_values num_rows None wa1) as [wa2 ca].
  destruct (choice category_values num_rows None wb1) as [wb2 cb].
  simpl in Hc, Hg'. subst cb. destruct ca as [e|categories]; [done|].
  destruct (date_range _ num_rows) as [e|timestamps]; [done|].
  by destruct (DataFrame_of_dict _) as [e|frame].
Qed.

(** X11. A shorter dataset is the beginning of a longer one in its
    [response] and [timestamp] columns: for [n <= m] these two columns of
    the frame generated for [n] rows are the first [n] cells of the
    columns generated for [m] rows. *)
Theorem generate_random_dataset_prefix {Rng : Type} `{!RandomState Rng}
    (filename1 filename2 : string) (n m : Z) (w1 w2 : World Rng)
    (frame1 frame2 : DataFrame) :
  returned_frame (generate_random_dataset filename1 n w1) = inr frame1 →
  returned_frame (generate_random_dataset filename2 m w2) = inr frame2 →
  (n ≤ m)%Z →
  ∃ responses timestamps,
    getitem frame2 "response" = inr responses
    ∧ getitem frame2 "timestamp" = inr timestamps
    ∧ getitem frame1 "response" = inr (firstn (Z.to_nat n) responses)
    ∧ getitem frame1 "timestamp" = inr (firstn (Z.to_nat n) timestamps).
Proof.
  intros H1 H2 Hnm.
  apply generate_random_dataset_columns in H1
    as (Hn & r1 & c1 & Hcols1 & _ & _ & Hr1).
  apply generate_random_dataset_columns in H2
    as (Hm & r2 & c2 & Hcols2 & _ & _ & Hr2).
  eexists r2, _. unfold getitem. rewrite Hcols1, Hcols2. simpl.
  split; [done|]. split; [done|].
  assert (Hle : Z.to_nat n ≤ Z.to_nat m) by lia.
  split.
  - do 2 f_equal.
    apply (take_firstn _ _ _ (Z.to_nat n)) in Hr2.
    rewrite firstn_map, <- (draws_prefix _ _ _ _ Hle) in Hr2. congruence.
  - do 2 f_equal. rewrite firstn_map. f_equal.
    rewrite take_seq. f_equal. lia.
Qed.

Lemma generate_random_dataset_prefix_witness :
  ∃ frame1 frame2 responses,
    returned_frame (@generate_random_dataset Z Lcg.rng "a.csv" 2
                      (mkWorld ∅ 0%Z ∅ [])) = inr frame1
    ∧ returned_frame (@generate_random_dataset Z Lcg.rng "b.csv" 4
                        (mkWorld ∅ 9%Z ∅ [])) = inr frame2
    ∧ getitem frame2 "response" = inr responses
    ∧ getitem frame1 "response" = inr (firstn 2 responses).
Proof.
  destruct (@generate_random_dataset_run Z Lcg.rng "a.csv" 2
              (mkWorld ∅ 0%Z ∅ []))
    as (wa & la & ra & ca & ta & Hruna & Hheapa & _); [lia|].
  destruct (@generate_random_dataset_run Z Lcg.rng "b.csv" 4
              (mkWorld ∅ 9%Z ∅ []))
    as (wb & lb & rb & cb & tb & Hrunb & Hheapb & _); [lia|].
  assert (Ha : returned_frame (@generate_random_dataset Z Lcg.rng "a.csv" 2
                                 (mkWorld ∅ 0%Z ∅ []))
               = inr (mkFrame (Z.to_nat 2)
                        [("response", ra); ("category", ca);
                         ("timestamp", ta)])).
  { rewrite Hruna. unfold returned_frame. rewrite Hheapa. reflexivity. }
  assert (Hb : returned_frame (@generate_random_dataset Z Lcg.rng "b.csv" 4
                                 (mkWorld ∅ 9%Z ∅ []))
               = inr (mkFrame (Z.to_nat 4)
                        [("response", rb); ("category", cb);
                         ("timestamp", tb)])).
  { rewrite Hrunb. unfold returned_frame. rewrite Hheapb. reflexivity. }
  destruct (@generate_random_dataset_prefix Z Lcg.rng "a.csv" "b.csv" 2 4
              (mkWorld ∅ 0%Z ∅ []) (mkWorld ∅ 9%Z ∅ []) _ _ Ha Hb)
    as (responses & _ & Hr2 & _ & Hr1 & _); [lia|].
  eexists _, _, responses.
  split; [exact Ha|]. split; [exact Hb|]. split; [exact Hr2|exact Hr1].
Defined.

(** ** The stages composed *)

Section pipeline_facts.
Context {Rng : Type} `{!RandomState Rng}.
Implicit Types (w : World Rng) (s : list value).

Lemma take_inv a idx vs :
  take a idx = inr vs → length vs = length idx ∧ Forall (λ v, v ∈ a) vs.
Proof.
  revert vs. induction idx as [|i idx IH]; intros vs; simpl.
  { intros [= <-]. by split. }
  destruct (a !! i) as [v|] eqn:Hv; [|done].
  destruct (take a idx) as [e|vs'] eqn:E; simpl; [done|].
  intros [= <-]. destruct (IH vs' eq_refl) as [Hlen Hall].
  split; [simpl; by rewrite Hlen|].
  constructor; [by eapply list_elem_of_lookup_2|done].
Qed.

(** Cells drawn from a pool without repetition have at most as many
    distinct values as the pool. *)
Lemma nunique_le_pool s (pool : list value) :
  Forall (λ v, v ∈ pool) s → Series.nunique s ≤ length pool.
Proof.
  intros Hall. apply submseteq_length, NoDup_submseteq; [apply NoDup_unique|].
  intros v Hv. rewrite elem_of_unique in Hv. destruct Hv as [Hv _].
  rewrite Forall_forall in Hall. by apply Hall.
Qed.

(** A column of integers or of timestamps has no missing cell. *)
Lemma no_missing_pool s (pool : list value) :
  VNaN ∉ pool → Forall (λ v, v ∈ pool) s → no_missing s.
Proof.
  intros Hpool Hall. unfold no_missing. eapply Forall_impl; [exact Hall|].
  intros v Hv ->. done.
Qed.

Lemma no_missing_timestamps (start : Z) (n : nat) :
  no_missing (map (λ i, VTime (start + Z.of_nat i)) (seq 0 n)).
Proof.
  apply Forall_forall. intros v Hv ->.
  by apply list_elem_of_fmap in Hv as (i & ? & _).
Qed.

Global Instance timestamp_inj (start : Z) :
  Inj (=) (=) (λ i : nat, VTime (start + Z.of_nat i)).
Proof. intros i j [= Hij]. lia. Qed.

Lemma timestamps_NoDup (start : Z) (n : nat) :
  NoDup (map (λ i, VTime (start + Z.of_nat i)) (seq 0 n)).
Proof. apply (NoDup_fmap_2 _), NoDup_seq. Qed.

End pipeline_facts.

(** X12. The [response] column of every dataset generated with
    [num_rows > 0] can be measured: [calculate_metrics] returns
    [num_total = num_rows], at most 10 distinct values, a [most_common]
    between 1 and 10, and a [count_most_common] of at least a tenth of the
    rows. *)
Theorem generated_response_metrics {Rng : Type} `{!RandomState Rng}
    (filename : string) (num_rows : Z) (w : World Rng) (frame : DataFrame) :
  returned_frame (generate_random_dataset filename num_rows w) = inr frame →
  (0 < num_rows)%Z →
  ∃ m, calculate_metrics frame "response" = inr m
    ∧ num_total m = Z.to_nat num_rows
    ∧ num_unique m ≤ 10
    ∧ Z.to_nat num_rows ≤ 10 * count_most_common m
    ∧ ∃ z, most_common m = VInt z ∧ (1 ≤ z ≤ 10)%Z.
Proof.
  intros Hgen Hn.
  apply generate_random_dataset_columns in Hgen
    as (_ & rs & cs & Hcols & _ & _ & Hrs).
  apply take_inv in Hrs as [Hlen Hall].
  rewrite length_map, draws_length in Hlen.
  assert (Hget : getitem frame "response" = inr rs)
    by (unfold getitem; by rewrite Hcols).
  assert (Hfull : no_missing rs).
  { apply (no_missing_pool rs response_values); [|done].
    intros Hin. by apply response_values_range in Hin as (z & ? & _). }
  assert (Hne : Series.dropna rs ≠ []).
  { rewrite (dropna_no_missing rs Hfull). intros ->. simpl in Hlen. lia. }
  destruct (calculate_metrics_total frame "response" rs Hget Hne) as [m Hm].
  exists m. split; [done|].
  apply calculate_metrics_inv in Hm
    as (s & Hget' & _ & Hu & Ht & _ & [Hin _] & _ & _ & Hcm).
  rewrite Hget in Hget'. injection Hget' as <-.
  pose proof (nunique_le_pool rs response_values Hall) as Hk.
  change (length response_values) with 10 in Hk.
  pose proof (max_count_pigeonhole rs) as Hpig.
  rewrite (dropna_no_missing rs Hfull) in Hpig.
  rewrite Ht, Hu, Hcm. repeat split; try lia; try nia.
  apply response_values_range. rewrite Forall_forall in Hall. by apply Hall.
Qed.

Lemma generated_response_metrics_witness :
  ∃ frame m,
    returned_frame (@generate_random_dataset Z Lcg.rng "guesses.csv" 25
                      (mkWorld ∅ 0%Z ∅ [])) = inr frame
    ∧ calculate_metrics frame "response" = inr m
    ∧ num_total m = 25
    ∧ 25 ≤ 10 * count_most_common m.
Proof.
  destruct (@generate_random_dataset_run Z Lcg.rng "guesses.csv" 25
              (mkWorld ∅ 0%Z ∅ []))
    as (w' & l & rs & cs & ts & Hrun & Hheap & _); [lia|].
  assert (Hf : returned_frame (@generate_random_dataset Z Lcg.rng
                                 "guesses.csv" 25 (mkWorld ∅ 0%Z ∅ []))
               = inr (mkFrame (Z.to_nat 25)
                        [("response", rs); ("category", cs);
                         ("timestamp", ts)])).
  { rewrite Hrun. unfold returned_frame. rewrite Hheap. reflexivity. }
  destruct (@generated_response_metrics Z Lcg.rng "guesses.csv" 25
              (mkWorld ∅ 0%Z ∅ []) _ Hf) as (m & Hm & Ht & _ & Hc & _);
    [lia|].
  eexists _, m. split; [exact Hf|]. split; [exact Hm|].
  split; [exact Ht|exact Hc].
Defined.

(** X13. The [timestamp] column of every dataset generated with
    [num_rows > 0] has no repeated cell: [calculate_metrics] returns
    [num_unique = num_total = num_rows], [count_most_common = 1],
    [proportion_unique = 1] and, the tie being broken towards the least
    cell, [most_common] = 2024-01-01T00:00; the uniformity test on it
    returns the statistic 0, with the p-value 1 for two rows or more and an
    undefined p-value for a single row. *)
Theorem generated_timestamp_metrics {Rng : Type} `{!RandomState Rng}
    `{!Chi2} (filename : string) (num_rows : Z) (w : World Rng)
    (frame : DataFrame) :
  returned_frame (generate_random_dataset filename num_rows w) = inr frame →
  (0 < num_rows)%Z →
  (∃ m, calculate_metrics frame "timestamp" = inr m
     ∧ num_unique m = Z.to_nat num_rows
     ∧ num_total m = Z.to_nat num_rows
     ∧ count_most_common m = 1
     ∧ (proportion_unique m == 1)%Q
     ∧ most_common m = VTime (Timestamp 2024 1 1))
  ∧ (∃ stat, perform_chi_square_test frame "timestamp"
             = inr (stat, if decide (num_rows = 1)%Z then None else Some 1%Q)
       ∧ (stat == 0)%Q).
Proof.
  intros Hgen Hn.
  apply generate_random_dataset_columns in Hgen
    as (_ & rs & cs & Hcols & _ & Hrect & _).
  set (ts := map (λ i, VTime (Timestamp 2024 1 1 + Z.of_nat i))
               (seq 0 (Z.to_nat num_rows))) in *.
  assert (Hget : getitem frame "timestamp" = inr ts)
    by (unfold getitem; by rewrite Hcols).
  assert (Hlen : length ts = Z.to_nat num_rows)
    by (unfold ts; by rewrite length_map, length_seq).
  assert (Hne : ts ≠ []) by (intros E; rewrite E in Hlen; simpl in Hlen; lia).
  assert (Hfull : no_missing ts) by apply no_missing_timestamps.
  assert (Hdrop : Series.dropna ts = ts) by (by apply dropna_no_missing).
  assert (Hne' : Series.dropna ts ≠ []) by (by rewrite Hdrop).
  assert (Hnd : NoDup ts) by apply timestamps_NoDup.
  pose proof (proj2 (nunique_length_NoDup ts) (conj Hfull Hnd)) as Hk.
  assert (Hmax : Series.max_count ts = 1).
  { apply (NoDup_max_count ts Hne'). by rewrite Hdrop. }
  assert (Hone : ∀ v, v ∈ ts → Series.count v ts = 1).
  { intros v Hv. pose proof (max_count_ge ts v Hv).
    assert (Hpos : 0 < Series.count v ts).
    { apply count_pos. split; [done|].
      unfold no_missing in Hfull. rewrite Forall_forall in Hfull. auto. }
    lia. }
  split.
  - destruct (calculate_metrics_total frame "timestamp" ts Hget Hne')
      as [m Hm].
    exists m. split; [done|].
    apply calculate_metrics_inv in Hm
      as (s & Hget' & _ & Hu & Ht & Hp & [Hin _] & _ & Hle & Hcm).
    rewrite Hget in Hget'. injection Hget' as <-.
    assert (Hdtype : comparable (Series.dropna ts)).
    { rewrite Hdrop. right; right. apply Forall_forall.
      intros v Hv. by apply list_elem_of_fmap in Hv as (i & -> & _). }
    specialize (Hle Hdtype).
    rewrite Hu, Ht, Hcm, Hp, Hk, Hlen. repeat split; try done.
    { apply Qnat_ratio_one; lia. }
    assert (H0 : VTime (Timestamp 2024 1 1) ∈ ts).
    { apply list_elem_of_fmap. exists 0. split; [f_equal; lia|].
      apply elem_of_seq. lia. }
    apply (anti_symm value_le).
    + apply Hle; [done|]. rewrite Hmax. by apply Hone.
    + apply list_elem_of_fmap in Hin as (i & -> & _). simpl. lia.
  - destruct (perform_chi_square_test_run frame "timestamp" ts Hrect Hget
                Hfull Hne) as (stat & Hrun & Hstat).
    assert (H0 : (stat == 0)%Q).
    { rewrite Hstat, <- (getitem_rectangular _ _ _ Hrect Hget).
      apply pearson_statistic_uniform; [done|done|].
      intros u v Hu Hv. by rewrite !Hone. }
    exists stat. split; [|done]. rewrite Hrun. do 2 f_equal.
    rewrite Hk, Hlen. case_decide.
    + apply chi2_sf_nan. lia.
    + apply chi2_sf_zero; [lia|done].
Qed.

Lemma generated_timestamp_metrics_witness :
  ∃ frame m,
    returned_frame (@generate_random_dataset Z Lcg.rng "guesses.csv" 25
                      (mkWorld ∅ 0%Z ∅ [])) = inr frame
    ∧ calculate_metrics frame "timestamp" = inr m
    ∧ count_most_common m = 1
    ∧ most_common m = VTime (Timestamp 2024 1 1).
Proof.
  destruct (@generate_random_dataset_run Z Lcg.rng "guesses.csv" 25
              (mkWorld ∅ 0%Z ∅ []))
    as (w' & l & rs & cs & ts & Hrun & Hheap & _); [lia|].
  assert (Hf : returned_frame (@generate_random_dataset Z Lcg.rng
                                 "guesses.csv" 25 (mkWorld ∅ 0%Z ∅ []))
               = inr (mkFrame (Z.to_nat 25)
                        [("response", rs); ("category", cs);
                         ("timestamp", ts)])).
  { rewrite Hrun. unfold returned_frame. rewrite Hheap. reflexivity. }
  destruct (@generated_timestamp_metrics Z Lcg.rng RationalSf.chi2
              "guesses.csv" 25 (mkWorld ∅ 0%Z ∅ []) _ Hf)
    as ((m & Hm & _ & _ & Hc & _ & Hmc) & _); [lia|].
  eexists _, m. split; [exact Hf|]. split; [exact Hm|].
  split; [exact Hc|exact Hmc].
Defined.

(** X14. Clustering the [category] column of a generated dataset
    ([num_rows > 0]) always fails: the column holds the letters A to D,
    which scikit-learn cannot convert to numbers, so [perform_clustering]
    raises [ValueError] and the world, the dataset included, stays as
    [generate_random_dataset] left it. *)
Theorem generated_category_clustering {Rng : Type} `{!RandomState Rng}
    `{!KMeans} (filename : string) (num_rows n_clusters : Z)
    (w w' : World Rng) (l : loc) :
  generate_random_dataset filename num_rows w = (w', inr l) →
  (0 < num_rows)%Z →
  perform_clustering l "category" n_clusters w' = (w', inl ValueError).
Proof.
  intros Hgen Hn.
  destruct (generate_random_dataset_run filename num_rows w)
    as (w1 & l1 & rs & cs & ts & Hrun & Hheap & _ & Hlc & _ & _ & Hcs & _);
    [lia|].
  rewrite Hgen in Hrun. injection Hrun as <- <-.
  rewrite perform_clustering_eq, Hheap. unfold getitem. simpl.
  assert (fit_predict n_clusters 0 cs = inl ValueError) as ->; [|done].
  apply fit_predict_dtype.
  destruct cs as [|c cs]; [simpl in Hlc; lia|].
  apply Forall_cons in Hcs as [Hc _]. left.
  apply list_elem_of_fmap in Hc as (name & -> & Hname).
  unfold is_word.
  repeat (apply elem_of_cons in Hname as [->|Hname]; [reflexivity|]).
  by apply elem_of_nil in Hname.
Qed.

Lemma generated_category_clustering_witness :
  ∃ w' l,
    @generate_random_dataset Z Lcg.rng "guesses.csv" 25
      (mkWorld ∅ 0%Z ∅ []) = (w', inr l)
    ∧ @perform_clustering Z ResidueLabels.kmeans l "category" 3 w'
      = (w', inl ValueError).
Proof.
  destruct (@generate_random_dataset_run Z Lcg.rng "guesses.csv" 25
              (mkWorld ∅ 0%Z ∅ []))
    as (w' & l & rs & cs & ts & Hrun & _); [lia|].
  exists w', l. split; [exact Hrun|].
  apply (@generated_category_clustering Z Lcg.rng ResidueLabels.kmeans
           "guesses.csv" 25 3 (mkWorld ∅ 0%Z ∅ []) w' l Hrun). lia.
Defined.

(** ** More on [perform_clustering] *)

Section clustering_more_facts.
Implicit Types (c : string) (s : list value)
  (cols : list (string * list value)).

Lemma col_set_idemp c s cols :
  col_set c s (col_set c s cols) = col_set c s cols.
Proof.
  induction cols as [|[name s'] cols IH]; simpl.
  - by rewrite decide_True.
  - destruct (decide (name = c)) as [->|Hne]; simpl.
    + by rewrite decide_True.
    + by rewrite decide_False, IH.
Qed.

Lemma labels_nunique (k : Z) (labels : list Z) :
  Forall (λ l, (0 ≤ l < k)%Z) labels →
  Series.nunique (map VInt labels) ≤ Z.to_nat k.
Proof.
  intros Hall.
  transitivity (length (map VInt (seqZ 0 k))).
  - apply submseteq_length, NoDup_submseteq; [apply NoDup_unique|].
    intros v Hv. rewrite elem_of_unique in Hv. destruct Hv as [Hv _].
    apply list_elem_of_fmap in Hv as (l & -> & Hl).
    apply list_elem_of_fmap. exists l. split; [done|].
    rewrite Forall_forall in Hall. apply elem_of_seqZ.
    specialize (Hall l Hl). lia.
  - by rewrite length_map, length_seqZ.
Qed.

End clustering_more_facts.

(** X15. A successful [perform_clustering] prints exactly one line, which
    names the number of clusters, allocates no frame, writes no file and
    leaves numpy's global generator as it found it. *)
Theorem perform_clustering_effects {Rng : Type} `{!KMeans}
    (data : loc) (column : string) (n_clusters : Z)
    (w w' : World Rng) (l : loc) :
  perform_clustering data column n_clusters w = (w', inr l) →
  stdout w'
  = stdout w ++ ["Clustering complete. Added 'cluster' column with "
                 +:+ pretty n_clusters +:+ " clusters."]
  ∧ dom (heap w') = dom (heap w)
  ∧ files w' = files w
  ∧ np_random w' = np_random w.
Proof.
  rewrite perform_clustering_eq.
  destruct (heap w !! data) as [frame|] eqn:Hheap; [|done].
  destruct (getitem frame column) as [e|X]; [done|].
  destruct (fit_predict n_clusters 0 X) as [e|labels]; [done|].
  destruct (setitem frame "cluster" (map VInt labels)) as [e|frame'];
    [done|].
  intros [= <- <-]. simpl. repeat split.
  apply dom_insert_lookup_L. by eexists.
Qed.

Lemma perform_clustering_effects_witness :
  stdout (@perform_clustering Z ResidueLabels.kmeans 1%positive "response" 3
            (mkWorld {[1%positive := test_frame]} 0%Z ∅ [])).1
  = ["Clustering complete. Added 'cluster' column with 3 clusters."].
Proof.
  apply (@perform_clustering_effects Z ResidueLabels.kmeans 1%positive
           "response" 3 (mkWorld {[1%positive := test_frame]} 0%Z ∅ [])
           _ 1%positive).
  reflexivity.
Defined.

(** X16. Running [perform_clustering] again with the same arguments, on a
    column other than [cluster], succeeds again and leaves every frame as
    the first run left it: the [cluster] column is overwritten with the
    same labels, not added a second time. *)
Theorem perform_clustering_rerun {Rng : Type} `{!KMeans}
    (data : loc) (column : string) (n_clusters : Z)
    (w w1 : World Rng) (l : loc) :
  perform_clustering data column n_clusters w = (w1, inr l) →
  column ≠ "cluster" →
  ∃ w2, perform_clustering data column n_clusters w1 = (w2, inr data)
    ∧ heap w2 = heap w1.
Proof.
  rewrite !perform_clustering_eq.
  destruct (heap w !! data) as [frame|] eqn:Hheap; [|done].
  destruct (getitem frame column) as [e|X] eqn:Hget; [done|].
  destruct (fit_predict n_clusters 0 X) as [e|labels] eqn:Hfit; [done|].
  unfold setitem. case_decide as Hlen; [|done].
  intros [= <- <-] Hcol. simpl. rewrite lookup_insert_eq.
  unfold getitem in *. simpl.
  rewrite col_lookup_set_ne by done.
  destruct (col_lookup column (columns frame)) as [X'|]; [|done].
  injection Hget as ->. rewrite Hfit. rewrite decide_True by done.
  eexists. split; [done|]. simpl.
  by rewrite col_set_idemp, insert_insert_eq.
Qed.

Lemma perform_clustering_rerun_witness :
  ∃ w1 w2,
    @perform_clustering Z ResidueLabels.kmeans 1%positive "response" 3
      (mkWorld {[1%positive := test_frame]} 0%Z ∅ []) = (w1, inr 1%positive)
    ∧ @perform_clustering Z ResidueLabels.kmeans 1%positive "response" 3 w1
      = (w2, inr 1%positive)
    ∧ heap w2 = heap w1.
Proof.
  set (w1 := (@perform_clustering Z ResidueLabels.kmeans 1%positive
                "response" 3
                (mkWorld {[1%positive := test_frame]} 0%Z ∅ [])).1).
  assert (H1 : @perform_clustering Z ResidueLabels.kmeans 1%positive
                 "response" 3
                 (mkWorld {[1%positive := test_frame]} 0%Z ∅ [])
               = (w1, inr 1%positive)) by reflexivity.
  destruct (@perform_clustering_rerun Z ResidueLabels.kmeans 1%positive
              "response" 3 (mkWorld {[1%positive := test_frame]} 0%Z ∅ [])
              w1 1%positive H1) as (w2 & Hrun & Hheap); [discriminate|].
  exists w1, w2. split; [exact H1|]. split; [exact Hrun|exact Hheap].
Defined.

(** X17. Clustering does not disturb the other stages: after a successful
    [perform_clustering], [calculate_metrics] and
    [perform_chi_square_test] give on every column other than [cluster]
    the results they gave before. *)
Theorem perform_clustering_preserves_statistics {Rng : Type} `{!KMeans}
    `{!Chi2} (data : loc) (column : string) (n_clusters : Z)
    (w w' : World Rng) (l : loc) (frame frame' : DataFrame) :
  heap w !! data = Some frame →
  perform_clustering data column n_clusters w = (w', inr l) →
  heap w' !! l = Some frame' →
  ∀ c, c ≠ "cluster" →
    calculate_metrics frame' c = calculate_metrics frame c
    ∧ perform_chi_square_test frame' c = perform_chi_square_test frame c.
Proof.
  intros Hheap. rewrite perform_clustering_eq, Hheap.
  destruct (getitem frame column) as [e|X]; [done|].
  destruct (fit_predict n_clusters 0 X) as [e|labels]; [done|].
  unfold setitem. case_decide as Hlen; [|done].
  intros [= <- <-]. simpl. rewrite lookup_insert_eq. intros [= <-] c Hc.
  unfold calculate_metrics, perform_chi_square_test, getitem. simpl.
  by rewrite col_lookup_set_ne.
Qed.

Lemma perform_clustering_preserves_statistics_witness :
  ∃ w' frame',
    @perform_clustering Z ResidueLabels.kmeans 1%positive "response" 3
      (mkWorld {[1%positive := test_frame]} 0%Z ∅ []) = (w', inr 1%positive)
    ∧ heap w' !! 1%positive = Some frame'
    ∧ calculate_metrics frame' "response"
      = calculate_metrics test_frame "response".
Proof.
  set (w0 := mkWorld {[1%positive := test_frame]} 0%Z ∅ [] : World Z).
  set (w1 := (@perform_clustering Z ResidueLabels.kmeans 1%positive
                "response" 3 w0).1).
  set (frame' := default test_frame (heap w1 !! 1%positive)).
  assert (H0 : heap w0 !! 1%positive = Some test_frame) by reflexivity.
  assert (H1 : @perform_clustering Z ResidueLabels.kmeans 1%positive
                 "response" 3 w0 = (w1, inr 1%positive)) by reflexivity.
  assert (H2 : heap w1 !! 1%positive = Some frame') by reflexivity.
  exists w1, frame'. split; [exact H1|]. split; [exact H2|].
  apply (@perform_clustering_preserves_statistics Z ResidueLabels.kmeans
           RationalSf.chi2 1%positive "response" 3 w0 w1 1%positive
           test_frame frame' H0 H1 H2).
  discriminate.
Defined.

(** X18. After a successful [perform_clustering] with [n_clusters]
    clusters, [calculate_metrics] on the [cluster] column succeeds, counts
    one label per row and at most [n_clusters] distinct labels, and finds
    that the largest cluster holds at least the fraction [1 / n_clusters]
    of the rows. *)
Theorem perform_clustering_largest_cluster {Rng : Type} `{!KMeans}
    (data : loc) (column : string) (n_clusters : Z)
    (w w' : World Rng) (l : loc) (frame frame' : DataFrame) :
  heap w !! data = Some frame →
  perform_clustering data column n_clusters w = (w', inr l) →
  heap w' !! l = Some frame' →
  ∃ m, calculate_metrics frame' "cluster" = inr m
    ∧ num_total m = index_len frame
    ∧ num_unique m ≤ Z.to_nat n_clusters
    ∧ index_len frame ≤ count_most_common m * Z.to_nat n_clusters.
Proof.
  intros Hheap. rewrite perform_clustering_eq, Hheap.
  destruct (getitem frame column) as [e|X]; [done|].
  destruct (fit_predict n_clusters 0 X) as [e|labels] eqn:Hfit; [done|].
  unfold setitem. case_decide as Hlen; [|done].
  intros [= <- <-]. simpl. rewrite lookup_insert_eq. intros [= <-].
  assert (Hk : (0 < n_clusters)%Z).
  { destruct (decide (n_clusters ≤ 0)%Z) as [Hle|]; [|lia].
    by rewrite (fit_predict_n_clusters _ _ _ Hle) in Hfit. }
  assert (HX : (n_clusters ≤ Z.of_nat (length X))%Z).
  { destruct (decide (Z.of_nat (length X) < n_clusters)%Z) as [Hlt|]; [|lia].
    by rewrite (fit_predict_n_samples _ _ _ Hlt) in Hfit. }
  apply fit_predict_labels in Hfit as [Hlabels Hrange].
  set (s := map VInt labels) in *.
  assert (Hget : getitem (mkFrame (index_len frame)
                            (col_set "cluster" s (columns frame)))
                   "cluster" = inr s).
  { unfold getitem. simpl. by rewrite col_lookup_set_eq. }
  assert (Hfull : no_missing s).
  { apply Forall_forall. intros v Hv ->.
    by apply list_elem_of_fmap in Hv as (i & ? & _). }
  assert (Hne : Series.dropna s ≠ []).
  { rewrite (dropna_no_missing s Hfull). intros E. rewrite E in Hlen.
    unfold s in E. apply map_eq_nil in E. subst labels.
    simpl in Hlabels. lia. }
  destruct (calculate_metrics_total _ _ s Hget Hne) as [m Hm].
  exists m. split; [done|].
  apply calculate_metrics_inv in Hm
    as (s' & Hget' & _ & Hu & Ht & _ & _ & _ & _ & Hcm).
  rewrite Hget in Hget'. injection Hget' as <-.
  pose proof (labels_nunique n_clusters labels Hrange) as Hnu.
  fold s in Hnu. pose proof (max_count_pigeonhole s) as Hpig.
  rewrite (dropna_no_missing s Hfull) in Hpig.
  rewrite Hu, Ht, Hcm. repeat split; try lia. nia.
Qed.

Lemma perform_clustering_largest_cluster_witness :
  ∃ w' frame' m,
    @perform_clustering Z ResidueLabels.kmeans 1%positive "response" 3
      (mkWorld {[1%positive := test_frame]} 0%Z ∅ []) = (w', inr 1%positive)
    ∧ heap w' !! 1%positive = Some frame'
    ∧ calculate_metrics frame' "cluster" = inr m
    ∧ 6 ≤ count_most_common m * 3.
Proof.
  set (w0 := mkWorld {[1%positive := test_frame]} 0%Z ∅ [] : World Z).
  set (w1 := (@perform_clustering Z ResidueLabels.kmeans 1%positive
                "response" 3 w0).1).
  set (frame' := default test_frame (heap w1 !! 1%positive)).
  assert (H0 : heap w0 !! 1%positive = Some test_frame) by reflexivity.
  assert (H1 : @perform_clustering Z ResidueLabels.kmeans 1%positive
                 "response" 3 w0 = (w1, inr 1%positive)) by reflexivity.
  assert (H2 : heap w1 !! 1%positive = Some frame') by reflexivity.
  destruct (@perform_clustering_largest_cluster Z ResidueLabels.kmeans
              1%positive "response" 3 w0 w1 1%positive test_frame frame'
              H0 H1 H2) as (m & Hm & _ & _ & Hc).
  exists w1, frame', m. split; [exact H1|]. split; [exact H2|].
  split; [exact Hm|exact Hc].
Defined.
